(** * Needleman-Wunsch global alignment: a shallow embedding

    This development embeds the two Python modules of the repository,
    [scoring_scheme.py] (class [ScoringScheme]) and [needleman_wunsch.py]
    (function [needleman_wunsch]), and states the properties of the
    specification over that embedding.

    Modelling conventions.
    - A Python [str] is a [string]; one symbol is an [ascii].  The gap
      marker is the character "-".
    - Scores are Python floats.  The embedding uses [Z]: it covers the
      integer-valued scores, on which float64 addition, multiplication by
      an index, [max] and [==] are exact (below 2^53).  Rounding is not
      modelled.
    - A Python exception is a constructor of [exception]; a call that may
      raise returns a [result], threaded with stdpp's monad notation.
    - A numpy 2-D array is a list of rows, read and written by index;
      an index outside the array raises [IndexError], as numpy does.
    - A [dict] with string keys is a [gmap string nat].
    - An attribute that [__init__] does not create is an [option] field
      that starts as [None]; reading it raises [AttributeError]. *)

From Stdlib Require Import ZArith Ascii String Lia.
From stdpp Require Import base list strings gmap.

Local Open Scope Z_scope.
Local Open Scope string_scope.
Local Open Scope list_scope.

(** ** Exceptions and results *)

Inductive exception : Set :=
  | AttributeError
  | ValueError
  | AssertionError
  | TypeError
  | KeyError
  | IndexError.

#[global] Instance exception_eq_dec : EqDecision exception.
Proof. solve_decision. Defined.

Inductive result (A : Type) : Type :=
  | Ok (a : A)
  | Raise (e : exception).
Arguments Ok {A} a.
Arguments Raise {A} e.

#[global] Instance result_ret : MRet result := λ A a, Ok a.
#[global] Instance result_bind : MBind result :=
  λ A B f m, match m with Ok a => f a | Raise e => Raise e end.

(** [for x in xs: state = body(x, state)], stopping at the first exception. *)
Fixpoint for_each {X S : Type} (xs : list X) (body : X → S → result S) (s : S)
  : result S :=
  match xs with
  | [] => Ok s
  | x :: xs' => s' ← body x s; for_each xs' body s'
  end.

(** Python's [range(a, b)]. *)
Definition range (a b : nat) : list nat := seq a (b - a).

(** ** Strings *)

Definition gap : ascii := "-"%char.

Definition is_gap (c : ascii) : bool := Ascii.eqb c gap.

(** [s[n]] for [0 <= n]; out of range raises [IndexError]. *)
Definition str_index (s : string) (n : nat) : result ascii :=
  match String.get n s with
  | Some c => Ok c
  | None => Raise IndexError
  end.

(** The one-character string [c]. *)
Definition str1 (c : ascii) : string := String c EmptyString.

(** [n * "-"]. *)
Fixpoint gaps (n : nat) : string :=
  match n with
  | O => EmptyString
  | S n' => String gap (gaps n')
  end.

(** Deleting every gap marker of an aligned sequence. *)
Fixpoint remove_gaps (s : string) : string :=
  match s with
  | EmptyString => EmptyString
  | String c s' => if is_gap c then remove_gaps s' else String c (remove_gaps s')
  end.

(** [s] holds no gap marker. *)
Fixpoint gap_free (s : string) : bool :=
  match s with
  | EmptyString => true
  | String c s' => negb (is_gap c) && gap_free s'
  end.

(** ** numpy arrays *)

Abbreviation matrix := (list (list Z)).

(** [A[i, j]] as a read. *)
Definition np_get (A : matrix) (i j : nat) : result Z :=
  match A !! i with
  | Some row => match row !! j with
                | Some v => Ok v
                | None => Raise IndexError
                end
  | None => Raise IndexError
  end.

(** [A[i, j] = v]. *)
Definition np_set (A : matrix) (i j : nat) (v : Z) : result matrix :=
  match A !! i with
  | Some row => if decide (j < length row)%nat
                then Ok (<[i := <[j := v]> row]> A)
                else Raise IndexError
  | None => Raise IndexError
  end.

(** [np.empty((r, c))] and [np.zeros((r, c))].  The contents of [np.empty]
    are unspecified; the engine writes every cell before it reads it, and
    the model starts from zeros. *)
Definition np_zeros (r c : nat) : matrix := replicate r (replicate c 0).
Definition np_empty (r c : nat) : matrix := np_zeros r c.

(** [g * np.arange(n)]. *)
Definition scaled_arange (g : Z) (n : nat) : list Z :=
  map (λ k, g * Z.of_nat k) (seq 0 n).

(** [A[0, :] = vs]. *)
Definition np_set_row0 (A : matrix) (vs : list Z) : matrix := <[0%nat := vs]> A.

(** [A[:, 0] = g * np.arange(len(A))]. *)
Definition np_set_col0 (A : matrix) (g : Z) : matrix :=
  imap (λ i row, <[0%nat := g * Z.of_nat i]> row) A.

(** ** scoring_scheme.py *)

Record ScoringScheme : Type := {
  match_score : Z;
  mismatch_penalty : Z;
  gap_penalty : Z;
  gap_start_penalty : Z;
  symbol_to_index : option (gmap string nat);
  scoring_matrix : option matrix;
  (** Not created by [__init__]; [main] assigns it when [--gap-penalty]
      is given. *)
  gap_extend_penalty : option Z
}.

(** [ScoringScheme.__init__], lines 5-11. *)
Definition ScoringScheme_init (match_score mismatch_penalty gap_penalty
                               gap_start_penalty : Z) : ScoringScheme :=
  {| match_score := match_score;
     mismatch_penalty := mismatch_penalty;
     gap_penalty := gap_penalty;
     gap_start_penalty := gap_start_penalty;
     symbol_to_index := None;
     scoring_matrix := None;
     gap_extend_penalty := None |}.

(** [ScoringScheme()] with the default arguments. *)
Definition ScoringScheme_default : ScoringScheme :=
  ScoringScheme_init 1 (-1) (-1) 0.

(** Attribute assignments made by callers ([main], lines 75-80). *)
Definition set_gap_extend_penalty (self : ScoringScheme) (g : Z) : ScoringScheme :=
  {| match_score := match_score self;
     mismatch_penalty := mismatch_penalty self;
     gap_penalty := gap_penalty self;
     gap_start_penalty := gap_start_penalty self;
     symbol_to_index := symbol_to_index self;
     scoring_matrix := scoring_matrix self;
     gap_extend_penalty := Some g |}.

Definition set_matrix (self : ScoringScheme) (idx : gmap string nat) (M : matrix)
  : ScoringScheme :=
  {| match_score := match_score self;
     mismatch_penalty := mismatch_penalty self;
     gap_penalty := gap_penalty self;
     gap_start_penalty := gap_start_penalty self;
     symbol_to_index := Some idx;
     scoring_matrix := Some M;
     gap_extend_penalty := gap_extend_penalty self |}.

(** The last two branches of the loop body of [score], lines 52-59: the
    score of two symbols neither of which is a gap marker. *)
Definition symbol_score (self : ScoringScheme) (symbol1 symbol2 : ascii)
  : result Z :=
  match scoring_matrix self with
  | Some M =>
      match symbol_to_index self with
      | None => Raise TypeError
      | Some idx =>
          match idx !! str1 symbol1, idx !! str1 symbol2 with
          | Some row, Some col => np_get M row col
          | _, _ => Raise AssertionError
          end
      end
  | None =>
      Ok (if Ascii.eqb symbol1 symbol2
          then match_score self else mismatch_penalty self)
  end.

(** [self.gap_start_penalty if (i > 0) and sequence[i - 1] != "-" else 0.0] *)
Definition gap_start_term (self : ScoringScheme) (sequence : string) (i : nat)
  : result Z :=
  if (0 <? i)%nat
  then prev ← str_index sequence (i - 1);
       Ok (if negb (is_gap prev) then gap_start_penalty self else 0)
  else Ok 0.

(** The loop of [score], lines 39-59: [i] is the index [enumerate] gives,
    [rest1] and [rest2] what [zip] has not consumed yet, [score] the
    accumulator. *)
Fixpoint score_loop (self : ScoringScheme) (sequence1 sequence2 : string)
    (i : nat) (rest1 rest2 : string) (score : Z) : result Z :=
  match rest1, rest2 with
  | String symbol1 rest1', String symbol2 rest2' =>
      if is_gap symbol1 && is_gap symbol2 then Raise ValueError
      else if is_gap symbol1 then
        t ← gap_start_term self sequence1 i;
        score_loop self sequence1 sequence2 (S i) rest1' rest2'
                   (score + gap_penalty self + t)
      else if is_gap symbol2 then
        t ← gap_start_term self sequence2 i;
        score_loop self sequence1 sequence2 (S i) rest1' rest2'
                   (score + gap_penalty self + t)
      else
        p ← symbol_score self symbol1 symbol2;
        score_loop self sequence1 sequence2 (S i) rest1' rest2' (score + p)
  | _, _ => Ok score
  end.

(** [ScoringScheme.score], lines 28-61. *)
Definition score (self : ScoringScheme) (sequence1 sequence2 : string)
  : result Z :=
  score_loop self sequence1 sequence2 0 sequence1 sequence2 0.

(** [ScoringScheme.__call__], lines 63-72. *)
Definition call (self : ScoringScheme) (sequence1 sequence2 : string)
  : result Z :=
  score self sequence1 sequence2.

(** *** load_matrix

    The file is the list of its lines, each as [readline] returns it (with
    its end of line).  At the end of the file [readline] returns the empty
    string. *)

(** Python's [str.isspace] on ASCII: tab to carriage return, the four
    separators 28-31, and space. *)
Definition is_space (c : ascii) : bool :=
  let n := nat_of_ascii c in
  ((9 <=? n) && (n <=? 13) || (28 <=? n) && (n <=? 31) || (n =? 32))%nat.

(** [str.split()]: the maximal runs of non-space characters.  [word] is the
    run being read. *)
Fixpoint split_from (s : string) (word : string) : list string :=
  match s with
  | EmptyString => match word with EmptyString => [] | _ => [word] end
  | String c s' =>
      if is_space c
      then match word with
           | EmptyString => split_from s' EmptyString
           | _ => word :: split_from s' EmptyString
           end
      else split_from s' (word +:+ str1 c)
  end.

Definition split (s : string) : list string := split_from s EmptyString.

(** [enumerate(l)]. *)
Definition enumerate {X : Type} (l : list X) : list (nat * X) :=
  zip (seq 0 (length l)) l.

(** Lines 82-84: read lines until one does not start with "#".  Returns
    that line and the rest of the file; [headline[0]] raises on the empty
    string that [readline] returns at the end of the file. *)
Fixpoint read_headline (f : list string) : result (string * list string) :=
  match f with
  | [] => Raise IndexError
  | headline :: f' =>
      match headline with
      | EmptyString => Raise IndexError
      | String c _ =>
          if Ascii.eqb c "#" then read_headline f' else Ok (headline, f')
      end
  end.

(** Line 85: [{symbol.strip(): i for i, symbol in enumerate(tokens)}]; the
    tokens of [split] hold no space, so [strip] does not change them. *)
Definition index_symbols (tokens : list string) : gmap string nat :=
  foldl (λ m p, <[p.2 := p.1]> m) ∅ (enumerate tokens).

Section LoadMatrix.

(** Python's built-in [float] on one token, with values in the model's
    scores: [Raise ValueError] on a token that is not a number. *)
Variable float : string → result Z.

(** Lines 91-95: one data line. *)
Definition load_row (symbol_to_index : gmap string nat) (line : string)
    (scoring_matrix : matrix) : result matrix :=
  match split line with
  | [] => Raise IndexError
  | symbol :: row =>
      match symbol_to_index !! symbol with
      | None => Raise KeyError
      | Some i =>
          for_each (enumerate row)
            (λ js M, v ← float js.2; np_set M i js.1 v)
            scoring_matrix
      end
  end.

(** [ScoringScheme.load_matrix], lines 74-95, on the lines of the file. *)
Definition load_matrix (self : ScoringScheme) (f : list string)
  : result ScoringScheme :=
  hf ← read_headline f;
  let symbol_to_index := index_symbols (split hf.1) in
  let n_symbols := size symbol_to_index in
  M ← for_each hf.2 (load_row symbol_to_index) (np_zeros n_symbols n_symbols);
  Ok (set_matrix self symbol_to_index M).

End LoadMatrix.

(** An instance of [float] on the integer literals: an optional sign and
    decimal digits.  Every other token raises [ValueError] here; it is used
    on integer literals and on tokens that are no numbers at all. *)
Fixpoint digits_value (s : string) (acc : Z) : option Z :=
  match s with
  | EmptyString => Some acc
  | String c s' =>
      let n := nat_of_ascii c in
      if ((48 <=? n) && (n <=? 57))%nat
      then digits_value s' (10 * acc + Z.of_nat (n - 48))
      else None
  end.

Definition float_of_literal (s : string) : result Z :=
  let unsigned (d : string) (sign : Z) :=
    match d with
    | EmptyString => Raise ValueError
    | _ => match digits_value d 0 with
           | Some v => Ok (sign * v)
           | None => Raise ValueError
           end
    end in
  match s with
  | String "-" d => unsigned d (-1)
  | String "+" d => unsigned d 1
  | _ => unsigned s 1
  end.

(** *** get_symbols *)

(** [np.empty(n, dtype=str)] has the dtype [<U1]: an element holds at most
    one character, and an assignment keeps the first character of the
    string assigned. *)
Definition truncate1 (s : string) : string :=
  match s with
  | EmptyString => EmptyString
  | String c _ => str1 c
  end.

(** Line 25, [symbols[index] = symbol], for [item = (symbol, index)]. *)
Definition set_symbol (item : string * nat) (symbols : list string)
  : result (list string) :=
  if decide (item.2 < length symbols)%nat
  then Ok (<[item.2 := truncate1 item.1]> symbols)
  else Raise IndexError.

(** [ScoringScheme.get_symbols], lines 13-26.  The elements of [np.empty]
    are unspecified and start here as empty strings; the items of the
    dictionary are visited in the order of [map_to_list], which matters
    only when two symbols have the same index. *)
Definition get_symbols (self : ScoringScheme) : result (option (list string)) :=
  match scoring_matrix self with
  | None => Ok None
  | Some _ =>
      match symbol_to_index self with
      | None => Raise TypeError
      | Some idx =>
          symbols ← for_each (map_to_list idx) set_symbol
                             (replicate (size idx) EmptyString);
          Ok (Some symbols)
      end
  end.

(** ** needleman_wunsch.py *)

(** One aligned pair, and one entry of the backtrace worklist
    [(alignment1, alignment2, i, j)]. *)
Abbreviation alignment := (string * string)%type.
Abbreviation partial := (string * string * nat * nat)%type.

(** Python's [max(a, b, c)]. *)
Definition max3 (a b c : Z) : Z := Z.max (Z.max a b) c.

(** Lines 23-25: the matrix with its first row and first column set. *)
Definition init_matrix (gap_penalty : Z) (max_i max_j : nat) : matrix :=
  np_set_col0
    (np_set_row0 (np_empty max_i max_j) (scaled_arange gap_penalty max_j))
    gap_penalty.

(** Lines 30-32: the assignment to [A[i, j]]. *)
Definition fill_cell (scoring_scheme : ScoringScheme)
    (sequence1 sequence2 : string) (gap_penalty : Z) (i j : nat) (A : matrix)
  : result matrix :=
  d ← np_get A (i - 1) (j - 1);
  c1 ← str_index sequence1 (i - 1);
  c2 ← str_index sequence2 (j - 1);
  s ← call scoring_scheme (str1 c1) (str1 c2);
  u ← np_get A (i - 1) j;
  l ← np_get A i (j - 1);
  np_set A i j (max3 (d + s) (u + gap_penalty) (l + gap_penalty)).

(** Lines 28-32: the two nested loops. *)
Definition fill_matrix (scoring_scheme : ScoringScheme)
    (sequence1 sequence2 : string) (gap_penalty : Z) (max_i max_j : nat)
    (A : matrix) : result matrix :=
  for_each (range 1 max_i)
    (λ i A, for_each (range 1 max_j)
              (λ j A, fill_cell scoring_scheme sequence1 sequence2
                                gap_penalty i j A) A) A.

(** Lines 19-32: the dynamic-programming matrix. *)
Definition build_matrix (scoring_scheme : ScoringScheme)
    (sequence1 sequence2 : string) (gap_penalty : Z) : result matrix :=
  let max_i := (String.length sequence1 + 1)%nat in
  let max_j := (String.length sequence2 + 1)%nat in
  fill_matrix scoring_scheme sequence1 sequence2 gap_penalty max_i max_j
              (init_matrix gap_penalty max_i max_j).

(** Lines 41-51: the body of the [for] loop of the backtrace on one partial
    alignment; the state is [(next_partials, alignments)].  The symbols
    [sequence1[i - 1]] and [sequence2[j - 1]] are read once: the source
    reads them again in the branches, with the same result. *)
Definition backtrace_partial (scoring_scheme : ScoringScheme)
    (sequence1 sequence2 : string) (gap_penalty : Z) (A : matrix)
    (p : partial) (st : list partial * list alignment)
  : result (list partial * list alignment) :=
  let '(alignment1, alignment2, i, j) := p in
  let '(next_partials, alignments) := st in
  if decide (i = 0)%nat then
    Ok (next_partials, alignments ++ [(alignment1, gaps j +:+ alignment2)])
  else if decide (j = 0)%nat then
    Ok (next_partials, alignments ++ [(gaps i +:+ alignment1, alignment2)])
  else
    a ← np_get A i j;
    d ← np_get A (i - 1) (j - 1);
    c1 ← str_index sequence1 (i - 1);
    c2 ← str_index sequence2 (j - 1);
    s ← call scoring_scheme (str1 c1) (str1 c2);
    let next_partials :=
      if (a =? d + s)%Z
      then next_partials
             ++ [(String c1 alignment1, String c2 alignment2, i - 1, j - 1)%nat]
      else next_partials in
    u ← np_get A (i - 1) j;
    let next_partials :=
      if (a =? u + gap_penalty)%Z
      then next_partials ++ [(String c1 alignment1, String gap alignment2, i - 1, j)%nat]
      else next_partials in
    l ← np_get A i (j - 1);
    let next_partials :=
      if (a =? l + gap_penalty)%Z
      then next_partials ++ [(String gap alignment1, String c2 alignment2, i, j - 1)%nat]
      else next_partials in
    Ok (next_partials, alignments).

(** Lines 38-52: the [while] loop, run for at most [rounds] iterations.
    The state is [(partials, alignments)]; the loop has exited when
    [partials] is empty. *)
Fixpoint backtrace (scoring_scheme : ScoringScheme)
    (sequence1 sequence2 : string) (gap_penalty : Z) (A : matrix)
    (rounds : nat) (partials : list partial) (alignments : list alignment)
  : result (list partial * list alignment) :=
  match rounds with
  | O => Ok (partials, alignments)
  | S rounds' =>
      match partials with
      | [] => Ok ([], alignments)
      | _ :: _ =>
          st ← for_each partials
                 (backtrace_partial scoring_scheme sequence1 sequence2
                                    gap_penalty A)
                 ([], alignments);
          backtrace scoring_scheme sequence1 sequence2 gap_penalty A
                    rounds' st.1 st.2
      end
  end.

(** The number of iterations after which the [while] loop has exited:
    every iteration lowers [i + j] of every partial alignment
    (lemma [backtrace_exits]). *)
Definition backtrace_rounds (sequence1 sequence2 : string) : nat :=
  S (String.length sequence1 + String.length sequence2).

(** [needleman_wunsch], lines 7-54. *)
Definition needleman_wunsch (sequence1 sequence2 : string)
    (scoring_scheme : ScoringScheme) : result (Z * list alignment) :=
  match gap_extend_penalty scoring_scheme with
  | None => Raise AttributeError
  | Some gap_penalty =>
      let max_i := (String.length sequence1 + 1)%nat in
      let max_j := (String.length sequence2 + 1)%nat in
      A ← build_matrix scoring_scheme sequence1 sequence2 gap_penalty;
      max_score ← np_get A (max_i - 1) (max_j - 1);
      st ← backtrace scoring_scheme sequence1 sequence2 gap_penalty A
             (backtrace_rounds sequence1 sequence2)
             [("", "", max_i - 1, max_j - 1)%nat] [];
      Ok (max_score, st.2)
  end.

(** *** main

    The arguments that [argparse] returns; an option that is not given
    is [None].  [--matrix-file] names a file: the model takes its lines. *)
Record Args : Type := {
  args_sequence1 : string;
  args_sequence2 : string;
  args_gap_penalty : option Z;
  args_match_score : option Z;
  args_mismatch_penalty : option Z;
  args_matrix_file : option (list string)
}.

(** The assignments of lines 78 and 80. *)
Definition set_match_score (self : ScoringScheme) (x : Z) : ScoringScheme :=
  {| match_score := x;
     mismatch_penalty := mismatch_penalty self;
     gap_penalty := gap_penalty self;
     gap_start_penalty := gap_start_penalty self;
     symbol_to_index := symbol_to_index self;
     scoring_matrix := scoring_matrix self;
     gap_extend_penalty := gap_extend_penalty self |}.

Definition set_mismatch_penalty (self : ScoringScheme) (x : Z)
  : ScoringScheme :=
  {| match_score := match_score self;
     mismatch_penalty := x;
     gap_penalty := gap_penalty self;
     gap_start_penalty := gap_start_penalty self;
     symbol_to_index := symbol_to_index self;
     scoring_matrix := scoring_matrix self;
     gap_extend_penalty := gap_extend_penalty self |}.

(** Lines 74-80: the scoring scheme that [main] configures before it
    loads a matrix. *)
Definition configure (args : Args) : ScoringScheme :=
  let scoring_scheme := ScoringScheme_default in
  let scoring_scheme :=
    match args_gap_penalty args with
    | Some x => set_gap_extend_penalty scoring_scheme (- Z.abs x)
    | None => scoring_scheme
    end in
  let scoring_scheme :=
    match args_match_score args with
    | Some x => set_match_score scoring_scheme x
    | None => scoring_scheme
    end in
  match args_mismatch_penalty args with
  | Some x => set_mismatch_penalty scoring_scheme (- Z.abs x)
  | None => scoring_scheme
  end.

(** [main], lines 57-84, up to the call of the engine: the result is what
    lines 86-93 print. *)
Definition main (float : string → result Z) (args : Args)
  : result (Z * list alignment) :=
  scoring_scheme ←
    match args_matrix_file args with
    | Some f => load_matrix float (configure args) f
    | None => Ok (configure args)
    end;
  needleman_wunsch (args_sequence1 args) (args_sequence2 args) scoring_scheme.

(** ** Definitions used by the statements *)

(** Python's class hierarchy: [KeyError] and [IndexError] are the
    subclasses of [LookupError]; [AssertionError] is not one. *)
Definition is_LookupError (e : exception) : bool :=
  match e with
  | KeyError | IndexError => true
  | _ => false
  end.

(** The policy of the textbook example: the default constructor, then the
    assignment [scoring_scheme.gap_extend_penalty = -1] that [main] makes
    for [--gap-penalty 1]. *)
Definition textbook_scheme : ScoringScheme :=
  set_gap_extend_penalty ScoringScheme_default (-1).

(** The two-symbol substitution matrix with header [A C] and rows
    [A 2 -1], [C -1 2]. *)
Definition two_symbol_scheme : ScoringScheme :=
  set_matrix ScoringScheme_default
             {[ "A" := 0%nat; "C" := 1%nat ]} [[2; -1]; [-1; 2]].

(** The number of gap markers of an aligned sequence. *)
Fixpoint count_gaps (s : string) : nat :=
  match s with
  | EmptyString => 0%nat
  | String c s' => ((if is_gap c then 1 else 0) + count_gaps s')%nat
  end.

(** *** The alignment scorer, position by position

    The next definitions follow the words of the specification of
    [scoreAlignment], amended at position 0: what one position adds to the
    score, and the score as the sum over the positions of the common
    length. *)

(** Position [k] is the first gap of a gap run on the side [s] as the
    scorer sees it: [k > 0] and the previous position of [s] is not a gap
    marker. *)
Definition opens_gap_run (s : string) (k : nat) : bool :=
  match k with
  | O => false
  | S k' => match String.get k' s with
            | Some c => negb (is_gap c)
            | None => false
            end
  end.

(** What position [k] adds: a failure when both symbols are gap markers;
    [gap_penalty], plus [gap_start_penalty] when the position opens a gap
    run, when exactly one is; the score of the two symbols otherwise. *)
Definition position_term (self : ScoringScheme) (s1 s2 : string) (k : nat)
  : result Z :=
  match String.get k s1, String.get k s2 with
  | Some c1, Some c2 =>
      if is_gap c1 && is_gap c2 then Raise ValueError
      else if is_gap c1 then
        Ok (gap_penalty self
            + if opens_gap_run s1 k then gap_start_penalty self else 0)
      else if is_gap c2 then
        Ok (gap_penalty self
            + if opens_gap_run s2 k then gap_start_penalty self else 0)
      else symbol_score self c1 c2
  | _, _ => Raise IndexError
  end.

(** The sum of the terms of the positions [from, from + n), left to right,
    stopping at the first failure. *)
Definition sum_terms (term : nat → result Z) (from n : nat) (acc : Z)
  : result Z :=
  for_each (seq from n) (λ k acc, t ← term k; Ok (acc + t)) acc.

Definition sum_positions (self : ScoringScheme) (s1 s2 : string) : result Z :=
  sum_terms (position_term self s1 s2) 0
            (Nat.min (String.length s1) (String.length s2)) 0.

(** Both sequences hold a gap marker at position [k]. *)
Definition both_gaps_at (s1 s2 : string) (k : nat) : Prop :=
  String.get k s1 = Some gap ∧ String.get k s2 = Some gap.

(** The scorer fails at position [k] for another reason, with [e]: neither
    symbol is a gap marker and the lookup of the pair raises [e]. *)
Definition other_failure_at (self : ScoringScheme) (s1 s2 : string) (k : nat)
    (e : exception) : Prop :=
  ∃ c1 c2, String.get k s1 = Some c1 ∧ String.get k s2 = Some c2
           ∧ is_gap c1 = false ∧ is_gap c2 = false
           ∧ symbol_score self c1 c2 = Raise e.

(** *** The alignment matrix *)

(** [A] has [r] rows of [c] cells. *)
Definition shape (A : matrix) (r c : nat) : Prop :=
  length A = r ∧ ∀ i row, A !! i = Some row → length row = c.

(** The first row and the first column of [A] hold the cumulated gap
    costs. *)
Definition border (g : Z) (A : matrix) (r c : nat) : Prop :=
  (∀ j, (j < c)%nat → np_get A 0 j = Ok (g * Z.of_nat j))
  ∧ (∀ i, (i < r)%nat → np_get A i 0 = Ok (g * Z.of_nat i)).

(** The cell [(i, j)] of [A] is the maximum of the three terms of the
    recurrence, [p] being what the scoring scheme returns on the symbols
    [sequence1[i - 1]] and [sequence2[j - 1]]. *)
Definition cell_recurrence (self : ScoringScheme) (sequence1 sequence2 : string)
    (g : Z) (A : matrix) (i j : nat) : Prop :=
  ∃ c1 c2 p d u l,
    String.get (i - 1) sequence1 = Some c1
    ∧ String.get (j - 1) sequence2 = Some c2
    ∧ call self (str1 c1) (str1 c2) = Ok p
    ∧ np_get A (i - 1) (j - 1) = Ok d
    ∧ np_get A (i - 1) j = Ok u
    ∧ np_get A i (j - 1) = Ok l
    ∧ np_get A i j = Ok (max3 (d + p) (u + g) (l + g)).

(** [A] is a finished matrix for the two sequences. *)
Definition filled (self : ScoringScheme) (sequence1 sequence2 : string)
    (g : Z) (A : matrix) : Prop :=
  let m := String.length sequence1 in
  let n := String.length sequence2 in
  shape A (m + 1) (n + 1)
  ∧ border g A (m + 1) (n + 1)
  ∧ ∀ i j, (1 ≤ i ≤ m)%nat → (1 ≤ j ≤ n)%nat →
           cell_recurrence self sequence1 sequence2 g A i j.

(** The matrix while it is being filled: every cell that the two loops
    have assigned before reaching [(i, j)] satisfies the recurrence. *)
Definition filled_before (self : ScoringScheme) (sequence1 sequence2 : string)
    (g : Z) (A : matrix) (i j : nat) : Prop :=
  let m := String.length sequence1 in
  let n := String.length sequence2 in
  shape A (m + 1) (n + 1)
  ∧ border g A (m + 1) (n + 1)
  ∧ ∀ i' j', (1 ≤ i' ≤ m)%nat → (1 ≤ j' ≤ n)%nat →
             (i' < i ∨ i' = i ∧ j' < j)%nat →
             cell_recurrence self sequence1 sequence2 g A i' j'.

(** The scoring scheme returns a score on every pair of a symbol of
    [sequence1] and a symbol of [sequence2]. *)
Definition scorable (self : ScoringScheme) (sequence1 sequence2 : string)
  : Prop :=
  ∀ i j c1 c2,
    String.get i sequence1 = Some c1 → String.get j sequence2 = Some c2 →
    ∃ p, call self (str1 c1) (str1 c2) = Ok p.

(** *** The backtrace *)

(** One move of the backtrace: the partial alignment at [(i, j)], with
    [i] and [j] positive, yields a partial alignment at a predecessor cell
    whose term of the recurrence equals [A[i, j]]. *)
Inductive step (self : ScoringScheme) (sequence1 sequence2 : string) (g : Z)
    (A : matrix) : partial → partial → Prop :=
  | step_diagonal alignment1 alignment2 i j c1 c2 a d p :
      i ≠ 0%nat → j ≠ 0%nat →
      String.get (i - 1) sequence1 = Some c1 →
      String.get (j - 1) sequence2 = Some c2 →
      np_get A i j = Ok a → np_get A (i - 1) (j - 1) = Ok d →
      call self (str1 c1) (str1 c2) = Ok p →
      a = d + p →
      step self sequence1 sequence2 g A (alignment1, alignment2, i, j)
           (String c1 alignment1, String c2 alignment2, i - 1, j - 1)%nat
  | step_up alignment1 alignment2 i j c1 a u :
      i ≠ 0%nat → j ≠ 0%nat →
      String.get (i - 1) sequence1 = Some c1 →
      np_get A i j = Ok a → np_get A (i - 1) j = Ok u →
      a = u + g →
      step self sequence1 sequence2 g A (alignment1, alignment2, i, j)
           (String c1 alignment1, String gap alignment2, i - 1, j)%nat
  | step_left alignment1 alignment2 i j c2 a l :
      i ≠ 0%nat → j ≠ 0%nat →
      String.get (j - 1) sequence2 = Some c2 →
      np_get A i j = Ok a → np_get A i (j - 1) = Ok l →
      a = l + g →
      step self sequence1 sequence2 g A (alignment1, alignment2, i, j)
           (String gap alignment1, String c2 alignment2, i, j - 1)%nat.

(** The alignment that lines 42 and 44 append for a partial alignment on
    the first row or the first column. *)
Definition final (p : partial) (a : alignment) : Prop :=
  let '(alignment1, alignment2, i, j) := p in
  (i = 0%nat ∧ a = (alignment1, gaps j +:+ alignment2))
  ∨ (i ≠ 0%nat ∧ j = 0%nat ∧ a = (gaps i +:+ alignment1, alignment2)).

(** The partial alignment is at a cell of the matrix. *)
Definition in_range (sequence1 sequence2 : string) (p : partial) : Prop :=
  let '(_, _, i, j) := p in
  (i ≤ String.length sequence1)%nat ∧ (j ≤ String.length sequence2)%nat.

(** [i + j] of a partial alignment: it drops at every move. *)
Definition distance (p : partial) : nat :=
  let '(_, _, i, j) := p in (i + j)%nat.

(** The score of an alignment as the sum of the scores of its columns,
    each scored on its own by the scoring scheme: what [score] computes
    when [gap_start_penalty] is 0. *)
Fixpoint column_scores (self : ScoringScheme) (a1 a2 : string) : result Z :=
  match a1, a2 with
  | String c1 r1, String c2 r2 =>
      p ← call self (str1 c1) (str1 c2);
      t ← column_scores self r1 r2;
      Ok (p + t)
  | _, _ => Ok 0
  end.

(** *** Substitution-matrix files *)

(** [float] returns a value on the token. *)
Definition numeric (float : string → result Z) (token : string) : Prop :=
  ∃ v, float token = Ok v.

(** A data line that [load_matrix] accepts for an alphabet of [n] symbols
    indexed by [idx]: a known leading symbol, then at most [n] numeric
    entries. *)
Definition acceptable_row (float : string → result Z) (idx : gmap string nat)
    (n : nat) (line : string) : Prop :=
  ∃ symbol row i,
    split line = symbol :: row ∧ idx !! symbol = Some i ∧ (i < n)%nat
    ∧ Forall (numeric float) row ∧ (length row ≤ n)%nat.

(** A line that [load_matrix] skips before the header. *)
Definition is_comment (line : string) : Prop :=
  ∃ rest, line = String "#" rest.

(** A data line of a file that loads, for an alphabet of [n] symbols
    indexed by [idx]: a leading symbol of the header, then at most [n]
    numeric entries. *)
Definition loadable_row (float : string → result Z) (idx : gmap string nat)
    (n : nat) (line : string) : Prop :=
  ∃ symbol row,
    split line = symbol :: row ∧ is_Some (idx !! symbol)
    ∧ Forall (numeric float) row ∧ (length row ≤ n)%nat.

(** No data line of [rows] gives the cell [(i, j)]: every line whose
    leading symbol has the index [i] holds at most [j] entries. *)
Definition cell_not_given (idx : gmap string nat) (rows : list string)
    (i j : nat) : Prop :=
  ∀ line symbol row,
    line ∈ rows → split line = symbol :: row → idx !! symbol = Some i →
    (length row ≤ j)%nat.

(** Every score of the policy is at most [B] in absolute value. *)
Definition scores_within (self : ScoringScheme) (B : Z) : Prop :=
  (Z.abs (gap_penalty self) ≤ B)%Z
  ∧ (Z.abs (match_score self) ≤ B)%Z
  ∧ (Z.abs (mismatch_penalty self) ≤ B)%Z
  ∧ ∀ (M : matrix) (row : list Z) (v : Z),
      scoring_matrix self = Some M → row ∈ M → v ∈ row → (Z.abs v ≤ B)%Z.

(** The end of line. *)
Definition nl : string := String (ascii_of_nat 10) EmptyString.

(** *** Symmetric policies *)

(** The scoring scheme gives a pair of symbols and the swapped pair the
    same score (or the same failure). *)
Definition symmetric_scheme (self : ScoringScheme) : Prop :=
  ∀ a b, symbol_score self a b = symbol_score self b a.

(** *** Valid alignments *)

(** No column of the two aligned sequences holds two gap markers. *)
Fixpoint no_double_gap (a1 a2 : string) : bool :=
  match a1, a2 with
  | String c1 r1, String c2 r2 =>
      negb (is_gap c1 && is_gap c2) && no_double_gap r1 r2
  | _, _ => true
  end.

(** ** Basic facts about results, strings and arrays *)

Lemma bind_Ok {A B : Type} (m : result A) (f : A → result B) (b : B) :
  m ≫= f = Ok b ↔ ∃ a, m = Ok a ∧ f a = Ok b.
Proof.
  destruct m as [a|e]; unfold mbind, result_bind.
  - split; [intros H; exists a; auto | intros (a' & Ha & Hf); congruence].
  - split; [discriminate | intros (a' & Ha & _); discriminate].
Qed.

Lemma bind_Raise {A B : Type} (m : result A) (f : A → result B) (e : exception) :
  m ≫= f = Raise e ↔ m = Raise e ∨ ∃ a, m = Ok a ∧ f a = Raise e.
Proof.
  destruct m as [a|e']; unfold mbind, result_bind.
  - split; [intros H; right; exists a; auto |].
    intros [H | (a' & Ha & Hf)]; congruence.
  - split; [intros H; left; congruence |].
    intros [H | (a' & Ha & _)]; congruence.
Qed.

(** Inverts every hypothesis [m ≫= f = Ok b]. *)
Ltac inv_bind :=
  repeat match goal with
         | H : _ ≫= _ = Ok _ |- _ =>
             apply bind_Ok in H; destruct H as (? & ? & ?)
         | H : Ok _ = Ok _ |- _ => inversion H; subst; clear H
         | H : Raise _ = Ok _ |- _ => discriminate H
         end.

Lemma is_gap_true c : is_gap c = true ↔ c = gap.
Proof. unfold is_gap. apply Ascii.eqb_eq. Qed.

Lemma is_gap_false c : is_gap c = false ↔ c ≠ gap.
Proof. unfold is_gap. apply Ascii.eqb_neq. Qed.

Lemma get_lt (s : string) (k : nat) (c : ascii) :
  String.get k s = Some c → (k < String.length s)%nat.
Proof.
  revert k; induction s as [|a s IH]; intros k H; simpl in *; [discriminate |].
  destruct k as [|k]; [lia |]. apply IH in H. lia.
Qed.

Lemma get_Some (s : string) (k : nat) :
  (k < String.length s)%nat → ∃ c, String.get k s = Some c.
Proof.
  revert k; induction s as [|a s IH]; intros k H; simpl in *; [lia |].
  destruct k as [|k]; [eauto |]. apply IH. lia.
Qed.

(** ** Loops *)

(** A loop over [seq a n] that returns keeps an invariant indexed by the
    loop counter. *)
Lemma for_each_seq_inv {St : Type} (P : nat → St → Prop)
    (body : nat → St → result St) :
  ∀ n a s s',
    P a s →
    (∀ k t t', (a ≤ k < a + n)%nat → P k t → body k t = Ok t' → P (S k) t') →
    for_each (seq a n) body s = Ok s' → P (a + n)%nat s'.
Proof.
  induction n as [|n IH]; intros a s s' HP Hstep Hrun; cbn in Hrun.
  - inv_bind. rewrite Nat.add_0_r. exact HP.
  - inv_bind. rewrite <- Nat.add_succ_comm.
    match goal with
    | Hb : body a s = Ok ?t, Hr : for_each _ _ ?t = Ok s' |- _ =>
        apply (IH (S a) t s'); [| | exact Hr];
        [apply (Hstep a s t); [lia | exact HP | exact Hb] |]
    end.
    intros k t t' Hk. apply Hstep. lia.
Qed.

(** A loop over [seq a n] returns when every iteration does, from a state
    that satisfies the invariant. *)
Lemma for_each_seq_total {St : Type} (P : nat → St → Prop)
    (body : nat → St → result St) :
  ∀ n a s,
    P a s →
    (∀ k t, (a ≤ k < a + n)%nat → P k t → ∃ t', body k t = Ok t' ∧ P (S k) t') →
    ∃ s', for_each (seq a n) body s = Ok s' ∧ P (a + n)%nat s'.
Proof.
  induction n as [|n IH]; intros a s HP Hstep; cbn.
  - exists s. rewrite Nat.add_0_r. auto.
  - destruct (Hstep a s) as (t & Hb & HPt); [lia | exact HP |].
    rewrite Hb. unfold mbind, result_bind.
    rewrite <- Nat.add_succ_comm. apply IH; [exact HPt |].
    intros k t' Hk. apply Hstep. lia.
Qed.

(** ** numpy arrays *)

Lemma np_get_Ok (A : matrix) (i j : nat) (v : Z) :
  np_get A i j = Ok v ↔ ∃ row, A !! i = Some row ∧ row !! j = Some v.
Proof.
  unfold np_get. split.
  - destruct (A !! i) as [row|]; [| discriminate].
    destruct (row !! j) as [w|] eqn:E; [| discriminate].
    intros [= ->]. eauto.
  - intros (row & -> & ->). reflexivity.
Qed.

Lemma np_get_in_range (A : matrix) (r c i j : nat) :
  shape A r c → (i < r)%nat → (j < c)%nat → ∃ v, np_get A i j = Ok v.
Proof.
  intros [Hlen Hrows] Hi Hj.
  destruct (lookup_lt_is_Some_2 A i) as [row Hrow]; [lia |].
  destruct (lookup_lt_is_Some_2 row j) as [v Hv];
    [rewrite (Hrows i row Hrow); lia |].
  exists v. apply np_get_Ok. eauto.
Qed.

Lemma np_set_in_range (A : matrix) (r c i j : nat) (v : Z) :
  shape A r c → (i < r)%nat → (j < c)%nat → ∃ A', np_set A i j v = Ok A'.
Proof.
  intros [Hlen Hrows] Hi Hj. unfold np_set.
  destruct (lookup_lt_is_Some_2 A i) as [row Hrow]; [lia |].
  rewrite Hrow. rewrite (Hrows i row Hrow).
  destruct (decide (j < c)%nat); [eauto | lia].
Qed.

Lemma np_set_shape (A A' : matrix) (r c i j : nat) (v : Z) :
  shape A r c → np_set A i j v = Ok A' → shape A' r c.
Proof.
  intros [Hlen Hrows]. unfold np_set.
  destruct (A !! i) as [row|] eqn:Hrow; [| discriminate].
  destruct (decide _); [| discriminate]. intros [= <-].
  split; [rewrite length_insert; exact Hlen |].
  intros i' row'. rewrite list_lookup_insert.
  destruct (decide _) as [[-> _] | _].
  - intros [= <-]. rewrite length_insert. eauto.
  - apply Hrows.
Qed.

Lemma np_get_set_eq (A A' : matrix) (i j : nat) (v : Z) :
  np_set A i j v = Ok A' → np_get A' i j = Ok v.
Proof.
  unfold np_set.
  destruct (A !! i) as [row|] eqn:Hrow; [| discriminate].
  destruct (decide _) as [Hj|]; [| discriminate]. intros [= <-].
  apply np_get_Ok. exists (<[j := v]> row). split.
  - apply list_lookup_insert_eq. apply lookup_lt_is_Some_1. eauto.
  - apply list_lookup_insert_eq. exact Hj.
Qed.

Lemma np_get_set_ne (A A' : matrix) (i j i' j' : nat) (v : Z) :
  np_set A i j v = Ok A' → (i', j') ≠ (i, j) →
  np_get A' i' j' = np_get A i' j'.
Proof.
  unfold np_set.
  destruct (A !! i) as [row|] eqn:Hrow; [| discriminate].
  destruct (decide _) as [Hj|]; [| discriminate]. intros [= <-] Hne.
  unfold np_get. rewrite list_lookup_insert.
  destruct (decide _) as [[-> _] | _]; [| reflexivity].
  rewrite Hrow. rewrite list_lookup_insert_ne; [reflexivity | congruence].
Qed.

Lemma init_matrix_shape (g : Z) (r c : nat) : shape (init_matrix g r c) r c.
Proof.
  unfold init_matrix, np_set_col0, np_set_row0, np_empty, np_zeros.
  split.
  - rewrite length_imap, length_insert, length_replicate. reflexivity.
  - intros i row. rewrite list_lookup_imap, list_lookup_insert.
    destruct (decide _) as [[<- _] | _].
    + intros [= <-]. rewrite length_insert. unfold scaled_arange.
      rewrite length_map, length_seq. reflexivity.
    + destruct (replicate r (replicate c 0) !! i) as [row'|] eqn:E;
        [| discriminate].
      apply lookup_replicate_1 in E as [-> _].
      intros [= <-]. rewrite length_insert, length_replicate. reflexivity.
Qed.

Lemma init_matrix_border (g : Z) (r c : nat) :
  (0 < r)%nat → (0 < c)%nat → border g (init_matrix g r c) r c.
Proof.
  intros Hr Hc.
  assert (Hlen : length (scaled_arange g c) = c).
  { unfold scaled_arange. rewrite length_map, length_seq. reflexivity. }
  assert (Hrow0 : init_matrix g r c !! 0%nat
                  = Some (<[0%nat := g * Z.of_nat 0]> (scaled_arange g c))).
  { unfold init_matrix, np_set_col0, np_set_row0, np_empty, np_zeros.
    rewrite list_lookup_imap, list_lookup_insert_eq;
      [reflexivity | rewrite length_replicate; lia]. }
  split.
  - intros j Hj. apply np_get_Ok. eexists. split; [exact Hrow0 |].
    destruct j as [|j].
    + apply list_lookup_insert_eq. lia.
    + rewrite list_lookup_insert_ne by lia. unfold scaled_arange.
      change (map ?f ?l) with (f <$> l).
      rewrite list_lookup_fmap, lookup_seq_lt by lia. reflexivity.
  - intros i Hi. apply np_get_Ok.
    destruct i as [|i].
    + eexists. split; [exact Hrow0 |].
      apply list_lookup_insert_eq. lia.
    + exists (<[0%nat := g * Z.of_nat (S i)]> (replicate c 0)). split.
      * unfold init_matrix, np_set_col0, np_set_row0, np_empty, np_zeros.
        rewrite list_lookup_imap, list_lookup_insert_ne by lia.
        rewrite lookup_replicate_2 by lia. reflexivity.
      * apply list_lookup_insert_eq. rewrite length_replicate. lia.
Qed.

(** ** The alignment scorer *)

Lemma symbol_score_not_ValueError self c1 c2 :
  symbol_score self c1 c2 ≠ Raise ValueError.
Proof.
  unfold symbol_score, np_get.
  repeat (case_match; try discriminate).
Qed.

Lemma gap_start_term_opens self s i c :
  String.get i s = Some c →
  gap_start_term self s i
  = Ok (if opens_gap_run s i then gap_start_penalty self else 0).
Proof.
  intros Hget. unfold gap_start_term, opens_gap_run, str_index.
  destruct i as [|i]; [reflexivity |].
  replace (S i - 1)%nat with i by lia.
  destruct (get_Some s i) as [c' Hc'];
    [apply get_lt in Hget; lia |].
  rewrite Hc'. simpl. reflexivity.
Qed.

(** The loop of [score] adds the terms of the positions that [zip] still
    has to visit. *)
Lemma score_loop_sum_terms self s1 s2 :
  ∀ rest1 rest2 i acc,
    (∀ m, String.get m rest1 = String.get (i + m) s1) →
    (∀ m, String.get m rest2 = String.get (i + m) s2) →
    score_loop self s1 s2 i rest1 rest2 acc
    = sum_terms (position_term self s1 s2) i
        (Nat.min (String.length rest1) (String.length rest2)) acc.
Proof.
  induction rest1 as [|c1 rest1 IH]; intros rest2 i acc H1 H2;
    [reflexivity |].
  destruct rest2 as [|c2 rest2]; [reflexivity |].
  assert (G1 : String.get i s1 = Some c1).
  { rewrite <- (Nat.add_0_r i), <- H1. reflexivity. }
  assert (G2 : String.get i s2 = Some c2).
  { rewrite <- (Nat.add_0_r i), <- H2. reflexivity. }
  assert (IH' : ∀ acc', score_loop self s1 s2 (S i) rest1 rest2 acc'
                       = sum_terms (position_term self s1 s2) (S i)
                           (Nat.min (String.length rest1) (String.length rest2))
                           acc').
  { intros acc'. apply IH; intros m.
    - specialize (H1 (S m)). cbn [String.get] in H1. rewrite H1.
      f_equal. lia.
    - specialize (H2 (S m)). cbn [String.get] in H2. rewrite H2.
      f_equal. lia. }
  cbn [score_loop String.length Nat.min].
  unfold sum_terms at 1. cbn [seq for_each].
  fold (sum_terms (position_term self s1 s2) (S i)
          (Nat.min (String.length rest1) (String.length rest2))).
  replace (position_term self s1 s2 i) with
    (if is_gap c1 && is_gap c2 then Raise ValueError
     else if is_gap c1 then
       Ok (gap_penalty self
           + if opens_gap_run s1 i then gap_start_penalty self else 0)
     else if is_gap c2 then
       Ok (gap_penalty self
           + if opens_gap_run s2 i then gap_start_penalty self else 0)
     else symbol_score self c1 c2)
    by (unfold position_term; rewrite G1, G2; reflexivity).
  destruct (is_gap c1) eqn:E1, (is_gap c2) eqn:E2; cbn [andb].
  - reflexivity.
  - rewrite (gap_start_term_opens self s1 i c1 G1).
    unfold mbind, result_bind. rewrite IH'. f_equal. lia.
  - rewrite (gap_start_term_opens self s2 i c2 G2).
    unfold mbind, result_bind. rewrite IH'. f_equal. lia.
  - unfold mbind, result_bind.
    destruct (symbol_score self c1 c2); [apply IH' | reflexivity].
Qed.

Lemma score_sum_positions self s1 s2 :
  score self s1 s2 = sum_positions self s1 s2.
Proof.
  unfold score, sum_positions. apply score_loop_sum_terms; reflexivity.
Qed.

Lemma sum_terms_S term i n acc :
  sum_terms term i (S n) acc
  = t ← term i; sum_terms term (S i) n (acc + t).
Proof.
  unfold sum_terms. cbn [seq for_each].
  destruct (term i); reflexivity.
Qed.

(** A sum fails with [e] exactly when some position fails with [e] and the
    positions before it do not fail. *)
Lemma sum_terms_Raise term e :
  ∀ n i acc,
    sum_terms term i n acc = Raise e
    ↔ ∃ k, (i ≤ k < i + n)%nat ∧ term k = Raise e
           ∧ ∀ k', (i ≤ k' < k)%nat → ∃ t, term k' = Ok t.
Proof.
  induction n as [|n IH]; intros i acc.
  - split; [discriminate | intros (k & Hk & _); lia].
  - rewrite sum_terms_S. destruct (term i) as [t|e'] eqn:Ei;
      unfold mbind, result_bind.
    + rewrite IH. split.
      * intros (k & Hk & Hterm & Hbefore). exists k.
        split; [lia |]. split; [exact Hterm |].
        intros k' Hk'. destruct (decide (k' = i)) as [-> | Hne]; [eauto |].
        apply Hbefore. lia.
      * intros (k & Hk & Hterm & Hbefore). exists k.
        assert (k ≠ i) by congruence.
        split; [lia |]. split; [exact Hterm |].
        intros k' Hk'. apply Hbefore. lia.
    + split.
      * intros H. exists i. split; [lia |]. split; [congruence |].
        intros k' Hk'. lia.
      * intros (k & Hk & Hterm & Hbefore).
        destruct (decide (k = i)) as [-> | Hne]; [congruence |].
        destruct (Hbefore i) as [t Ht]; [lia | congruence].
Qed.

(** A sum fails with [ValueError] as soon as some position does and no
    position before it fails in another way. *)
Lemma sum_terms_ValueError term :
  ∀ n i acc k,
    (i ≤ k < i + n)%nat → term k = Raise ValueError →
    (∀ k' e, (i ≤ k' < k)%nat → term k' = Raise e → e = ValueError) →
    sum_terms term i n acc = Raise ValueError.
Proof.
  induction n as [|n IH]; intros i acc k Hk Hterm Hbefore; [lia |].
  rewrite sum_terms_S. destruct (term i) as [t|e] eqn:Ei;
    unfold mbind, result_bind.
  - assert (k ≠ i) by congruence.
    apply (IH _ _ k); [lia | exact Hterm |].
    intros k' e Hk'. apply Hbefore. lia.
  - destruct (decide (k = i)) as [-> | Hne]; [congruence |].
    f_equal. apply (Hbefore i); [lia | exact Ei].
Qed.

Lemma position_term_ValueError self s1 s2 k :
  position_term self s1 s2 k = Raise ValueError ↔ both_gaps_at s1 s2 k.
Proof.
  unfold position_term, both_gaps_at. split.
  - destruct (String.get k s1) as [c1|]; [| discriminate].
    destruct (String.get k s2) as [c2|]; [| discriminate].
    destruct (is_gap c1) eqn:E1, (is_gap c2) eqn:E2; cbn [andb];
      try discriminate.
    + intros _. apply is_gap_true in E1, E2. subst. auto.
    + intros H. contradict H. apply symbol_score_not_ValueError.
  - intros [-> ->]. reflexivity.
Qed.

Lemma position_term_other_failure self s1 s2 k e :
  e ≠ ValueError → (k < Nat.min (String.length s1) (String.length s2))%nat →
  position_term self s1 s2 k = Raise e ↔ other_failure_at self s1 s2 k e.
Proof.
  intros He Hk. unfold position_term, other_failure_at.
  destruct (get_Some s1 k) as [c1 G1]; [lia |].
  destruct (get_Some s2 k) as [c2 G2]; [lia |].
  rewrite G1, G2. split.
  - destruct (is_gap c1) eqn:E1, (is_gap c2) eqn:E2; cbn [andb];
      try congruence.
    intros H. exists c1, c2. auto.
  - intros (c1' & c2' & [= <-] & [= <-] & -> & -> & H). exact H.
Qed.

Lemma other_failure_not_ValueError self s1 s2 k e :
  other_failure_at self s1 s2 k e → e ≠ ValueError.
Proof.
  intros (c1 & c2 & _ & _ & _ & _ & H) ->.
  exact (symbol_score_not_ValueError _ _ _ H).
Qed.

Lemma other_failure_lt self s1 s2 k e :
  other_failure_at self s1 s2 k e →
  (k < Nat.min (String.length s1) (String.length s2))%nat.
Proof.
  intros (c1 & c2 & G1 & G2 & _). apply get_lt in G1, G2. lia.
Qed.

(** C10 as stated fails in its last part: with a substitution matrix over
    [A] and [C] loaded, the sequences ["B"] and ["A"] have no position
    where both hold a gap marker, and the scorer returns no score: it
    raises [AssertionError]. *)
Lemma C10_counterexample :
  (∀ k, ¬ both_gaps_at "B" "A" k)
  ∧ score two_symbol_scheme "B" "A" = Raise AssertionError
  ∧ ∀ v, score two_symbol_scheme "B" "A" ≠ Ok v.
Proof.
  split; [| split; [vm_compute; reflexivity | intros v; vm_compute; discriminate]].
  intros k [H _]. destruct k as [|[|k]]; discriminate H.
Qed.

(** C10, amended: the scorer raises [ValueError] exactly when some position
    of the common length holds a gap marker on both sides and no position
    before it fails in another way; when it does not raise [ValueError] it
    returns a score, or raises what the lookup of a pair of symbols raised
    at the first position that failed; with no substitution matrix loaded
    no lookup fails, so the scorer returns a score or raises
    [ValueError]. *)
Theorem C10_score_ValueError_iff :
  ∀ (self : ScoringScheme) (s1 s2 : string),
    (score self s1 s2 = Raise ValueError
     ↔ ∃ k, both_gaps_at s1 s2 k
            ∧ ∀ k' e, (k' < k)%nat → ¬ other_failure_at self s1 s2 k' e)
    ∧ (score self s1 s2 ≠ Raise ValueError →
       (∃ v, score self s1 s2 = Ok v)
       ∨ ∃ k e, other_failure_at self s1 s2 k e
                ∧ score self s1 s2 = Raise e)
    ∧ (scoring_matrix self = None →
       (∀ k e, ¬ other_failure_at self s1 s2 k e)
       ∧ (score self s1 s2 = Raise ValueError ∨ ∃ v, score self s1 s2 = Ok v)).
Proof.
  intros self s1 s2. rewrite score_sum_positions. unfold sum_positions.
  set (n := Nat.min (String.length s1) (String.length s2)).
  assert (Hno : scoring_matrix self = None →
                ∀ k e, ¬ other_failure_at self s1 s2 k e).
  { intros HM k e (c1 & c2 & _ & _ & _ & _ & H).
    unfold symbol_score in H. rewrite HM in H. discriminate. }
  assert (Hother :
    sum_terms (position_term self s1 s2) 0 n 0 ≠ Raise ValueError →
    (∃ v, sum_terms (position_term self s1 s2) 0 n 0 = Ok v)
    ∨ ∃ k e, other_failure_at self s1 s2 k e
             ∧ sum_terms (position_term self s1 s2) 0 n 0 = Raise e).
  { intros Hne.
    destruct (sum_terms (position_term self s1 s2) 0 n 0) as [v|e] eqn:E;
      [left; eauto | right].
    apply sum_terms_Raise in E. destruct E as (k & Hk & Hterm & _).
    exists k, e. split; [| reflexivity].
    apply position_term_other_failure; [congruence | fold n; lia | exact Hterm]. }
  split; [| split; [exact Hother |]].
  - split.
    + intros H. apply sum_terms_Raise in H.
      destruct H as (k & Hk & Hterm & Hbefore). exists k.
      split; [apply position_term_ValueError in Hterm; exact Hterm |].
      intros k' e Hk' Hfail.
      destruct (Hbefore k') as [t Ht]; [lia |].
      apply position_term_other_failure in Hfail;
        [congruence | eapply other_failure_not_ValueError; eauto |].
      fold n. lia.
    + intros (k & Hboth & Hbefore).
      assert (Hk : (k < n)%nat).
      { destruct Hboth as [G1 G2]. apply get_lt in G1, G2. unfold n. lia. }
      apply (sum_terms_ValueError _ _ _ _ k);
        [lia | apply position_term_ValueError; exact Hboth |].
      intros k' e Hk' Hterm.
      destruct (decide (e = ValueError)) as [-> | Hne]; [reflexivity |].
      exfalso. apply (Hbefore k' e); [lia |].
      apply position_term_other_failure; [exact Hne | fold n; lia | exact Hterm].
  - intros HM. split; [exact (Hno HM) |].
    destruct (sum_terms (position_term self s1 s2) 0 n 0) as [v|e] eqn:E;
      [right; eauto |].
    destruct (decide (e = ValueError)) as [-> | Hne]; [left; reflexivity |].
    destruct Hother as [[v Hv] | (k & e' & Hfail & _)];
      [congruence | discriminate Hv |].
    exfalso. exact (Hno HM k e' Hfail).
Qed.

(** C9 as stated fails at position 0: with [gap_penalty = -1] and
    [gap_start_penalty = -5] a gap marker at position 0, which is the first
    gap of its run, adds -1 and not -6, on either side. *)
Lemma C9_counterexample :
  score (ScoringScheme_init 1 (-1) (-1) (-5)) "-A" "AA" = Ok 0
  ∧ score (ScoringScheme_init 1 (-1) (-1) (-5)) "A" "-" = Ok (-1)
  ∧ score (ScoringScheme_init 1 (-1) (-1) (-5)) "A" "-" ≠ Ok (-1 + -5).
Proof. vm_compute. repeat split; discriminate. Qed.

(** C9, amended: the score is the sum, over the positions of the common
    length, of the term of each position.  Where exactly one side holds a
    gap marker the term is [gap_penalty], plus [gap_start_penalty] exactly
    when [k > 0] and the previous position of that side is not a gap
    marker; position 0 adds [gap_penalty] alone.  Where neither side holds
    a gap marker the term is the score of the two symbols. *)
Theorem C9_score_adds_position_terms :
  ∀ (self : ScoringScheme) (s1 s2 : string),
    score self s1 s2 = sum_positions self s1 s2
    ∧ (∀ k c1 c2,
          String.get k s1 = Some c1 → String.get k s2 = Some c2 →
          is_gap c1 = false → is_gap c2 = false →
          position_term self s1 s2 k = symbol_score self c1 c2)
    ∧ (∀ c1 c2,
          String.get 0 s1 = Some c1 → String.get 0 s2 = Some c2 →
          xorb (is_gap c1) (is_gap c2) = true →
          position_term self s1 s2 0 = Ok (gap_penalty self + 0))
    ∧ (∀ k c2 p,
          String.get (S k) s1 = Some gap → String.get (S k) s2 = Some c2 →
          is_gap c2 = false → String.get k s1 = Some p →
          position_term self s1 s2 (S k)
          = Ok (gap_penalty self
                + if is_gap p then 0 else gap_start_penalty self))
    ∧ (∀ k c1 p,
          String.get (S k) s1 = Some c1 → String.get (S k) s2 = Some gap →
          is_gap c1 = false → String.get k s2 = Some p →
          position_term self s1 s2 (S k)
          = Ok (gap_penalty self
                + if is_gap p then 0 else gap_start_penalty self)).
Proof.
  intros self s1 s2. split; [apply score_sum_positions |].
  unfold position_term, opens_gap_run.
  split; [| split; [| split]].
  - intros k c1 c2 -> -> -> ->. reflexivity.
  - intros c1 c2 -> ->. destruct (is_gap c1), (is_gap c2); simpl;
      (discriminate || reflexivity).
  - intros k c2 p -> -> -> ->. simpl. destruct (is_gap p); reflexivity.
  - intros k c1 p -> -> -> ->. simpl. destruct (is_gap p); reflexivity.
Qed.

(** *** The score of two symbols *)

(** What [scoring_scheme(a, b)] returns on two one-symbol strings. *)
Lemma call_symbols self a b :
  call self (str1 a) (str1 b)
  = if is_gap a && is_gap b then Raise ValueError
    else if is_gap a || is_gap b then Ok (gap_penalty self)
    else symbol_score self a b.
Proof.
  unfold call, score, str1. cbn [score_loop].
  destruct (is_gap a), (is_gap b); cbn [andb orb];
    unfold gap_start_term, mbind, result_bind; cbn [Nat.ltb Nat.leb];
    try reflexivity.
  - f_equal. lia.
  - f_equal. lia.
  - destruct (symbol_score self a b); reflexivity.
Qed.

(** C7 as stated fails on a gap marker and on the kind of the failure:
    with no matrix loaded the pair of a gap marker and [A] scores
    [gap_penalty], here -2, and not [mismatch_penalty]; with a matrix over
    [A] and [C] loaded, a pair with the absent symbol [B] raises
    [AssertionError], which is no [LookupError]. *)
Lemma C7_counterexample :
  (scoring_matrix (ScoringScheme_init 1 (-1) (-2) 0) = None
   ∧ call (ScoringScheme_init 1 (-1) (-2) 0) "-" "A" = Ok (-2)
   ∧ call (ScoringScheme_init 1 (-1) (-2) 0) "-" "A"
     ≠ Ok (mismatch_penalty (ScoringScheme_init 1 (-1) (-2) 0)))
  ∧ (call two_symbol_scheme "B" "A" = Raise AssertionError
     ∧ is_LookupError AssertionError = false).
Proof. vm_compute. repeat split; discriminate. Qed.

(** C7, amended: for two symbols neither of which is the gap marker, with
    no matrix loaded the pair scores [match_score] when the symbols are
    equal and [mismatch_penalty] otherwise; with a matrix loaded it scores
    [matrix[index(a)][index(b)]], and raises [AssertionError] when [a] or
    [b] is absent from the symbol set.  A pair with one gap marker scores
    [gap_penalty] and a pair of two gap markers raises [ValueError]. *)
Theorem C7_pair_score :
  ∀ (self : ScoringScheme) (a b : ascii),
    (is_gap a = false → is_gap b = false →
     (scoring_matrix self = None →
      call self (str1 a) (str1 b)
      = Ok (if Ascii.eqb a b then match_score self else mismatch_penalty self))
     ∧ (∀ M idx, scoring_matrix self = Some M →
                 symbol_to_index self = Some idx →
        (∀ row col, idx !! str1 a = Some row → idx !! str1 b = Some col →
                    call self (str1 a) (str1 b) = np_get M row col)
        ∧ (idx !! str1 a = None ∨ idx !! str1 b = None →
           call self (str1 a) (str1 b) = Raise AssertionError)))
    ∧ (xorb (is_gap a) (is_gap b) = true →
       call self (str1 a) (str1 b) = Ok (gap_penalty self))
    ∧ (is_gap a = true → is_gap b = true →
       call self (str1 a) (str1 b) = Raise ValueError).
Proof.
  intros self a b. rewrite call_symbols. split; [| split].
  - intros -> ->. cbn [andb orb]. unfold symbol_score. split.
    + intros ->. reflexivity.
    + intros M idx -> ->. split.
      * intros row col -> ->. reflexivity.
      * intros [-> | ->]; [reflexivity |].
        destruct (idx !! str1 a); reflexivity.
  - destruct (is_gap a), (is_gap b); cbn; (discriminate || reflexivity).
  - intros -> ->. reflexivity.
Qed.

(** The concrete case of the specification: with the matrix of header
    [A C] and rows [A 2 -1], [C -1 2], the pair [(A, C)] scores -1 and the
    pair [(A, A)] scores 2. *)
Example two_symbol_scores :
  call two_symbol_scheme "A" "C" = Ok (-1)
  ∧ call two_symbol_scheme "A" "A" = Ok 2.
Proof. vm_compute. split; reflexivity. Qed.

(** ** The alignment matrix *)

Section Matrix.

Variable self : ScoringScheme.
Variables sequence1 sequence2 : string.
Variable g : Z.

Local Abbreviation m := (String.length sequence1).
Local Abbreviation n := (String.length sequence2).

(** Two cells differ when their rows or their columns do. *)
Ltac cell_neq := let E := fresh in intros E; injection E; intros; lia.

Lemma str_index_Ok (s : string) (k : nat) (c : ascii) :
  str_index s k = Ok c ↔ String.get k s = Some c.
Proof.
  unfold str_index. destruct (String.get k s); split; congruence.
Qed.

(** An assignment to [(i, j)] keeps the recurrence of the cells assigned
    before. *)
Lemma cell_recurrence_preserved (A A' : matrix) (i j i' j' : nat) (v : Z) :
  np_set A i j v = Ok A' →
  (1 ≤ i')%nat → (1 ≤ j')%nat → (i' < i ∨ i' = i ∧ j' < j)%nat →
  cell_recurrence self sequence1 sequence2 g A i' j' →
  cell_recurrence self sequence1 sequence2 g A' i' j'.
Proof.
  intros Hset Hi' Hj' Hlt (c1 & c2 & p & d & u & l & G1 & G2 & Hp & Hd & Hu & Hl & Ha).
  exists c1, c2, p, d, u, l.
  repeat split; try assumption;
    (rewrite (np_get_set_ne A A' i j _ _ v Hset); [assumption |]);
    cell_neq.
Qed.

Lemma fill_cell_inv (A A' : matrix) (i j : nat) :
  (1 ≤ i ≤ m)%nat → (1 ≤ j ≤ n)%nat →
  filled_before self sequence1 sequence2 g A i j →
  fill_cell self sequence1 sequence2 g i j A = Ok A' →
  filled_before self sequence1 sequence2 g A' i (S j).
Proof.
  intros Hi Hj (Hshape & [Hrow0 Hcol0] & Hcells) Hfill.
  unfold fill_cell in Hfill.
  apply bind_Ok in Hfill as (d & Hd & Hfill).
  apply bind_Ok in Hfill as (c1 & G1 & Hfill).
  apply bind_Ok in Hfill as (c2 & G2 & Hfill).
  apply bind_Ok in Hfill as (p & Hp & Hfill).
  apply bind_Ok in Hfill as (u & Hu & Hfill).
  apply bind_Ok in Hfill as (l & Hl & Hset).
  apply str_index_Ok in G1, G2.
  assert (Hne : ∀ i' j', (i', j') ≠ (i, j) →
                         np_get A' i' j' = np_get A i' j').
  { intros i' j'. apply (np_get_set_ne _ _ _ _ _ _ _ Hset). }
  split; [eapply np_set_shape; eauto |]. split; [split |].
  - intros j' Hj'. rewrite Hne; [auto |]. cell_neq.
  - intros i' Hi'. rewrite Hne; [auto |]. cell_neq.
  - intros i' j' Hi' Hj' Hlt.
    destruct (decide ((i', j') = (i, j))) as [[= -> ->] | Hneq].
    + exists c1, c2, p, d, u, l.
      repeat split; try assumption;
        try (rewrite Hne; [assumption | cell_neq]).
      eapply np_get_set_eq; eauto.
    + eapply cell_recurrence_preserved; eauto; try lia.
      * destruct Hlt as [? | [-> ?]]; [left; assumption |].
        right. split; [reflexivity |].
        assert (j' ≠ j) by congruence. lia.
      * apply Hcells; try assumption.
        destruct Hlt as [? | [-> ?]]; [left; assumption |].
        right. split; [reflexivity |].
        assert (j' ≠ j) by congruence. lia.
Qed.

Lemma fill_cell_total (A : matrix) (i j : nat) :
  scorable self sequence1 sequence2 →
  (1 ≤ i ≤ m)%nat → (1 ≤ j ≤ n)%nat →
  shape A (m + 1) (n + 1) →
  ∃ A', fill_cell self sequence1 sequence2 g i j A = Ok A'.
Proof.
  intros Hscore Hi Hj Hshape. unfold fill_cell.
  destruct (np_get_in_range A _ _ (i - 1) (j - 1) Hshape) as [d ->]; [lia.. |].
  destruct (get_Some sequence1 (i - 1)) as [c1 G1]; [lia |].
  destruct (get_Some sequence2 (j - 1)) as [c2 G2]; [lia |].
  unfold str_index. rewrite G1, G2.
  destruct (Hscore _ _ _ _ G1 G2) as [p Hp].
  destruct (np_get_in_range A _ _ (i - 1) j Hshape) as [u Hu]; [lia.. |].
  destruct (np_get_in_range A _ _ i (j - 1) Hshape) as [l Hl]; [lia.. |].
  unfold mbind, result_bind. rewrite Hp, Hu, Hl.
  apply (np_set_in_range A _ _ i j _ Hshape); lia.
Qed.

Lemma init_matrix_filled_before :
  filled_before self sequence1 sequence2 g
                (init_matrix g (m + 1) (n + 1)) 1 1.
Proof.
  split; [apply init_matrix_shape |].
  split; [apply init_matrix_border; lia |].
  intros i' j' Hi' Hj' Hlt. lia.
Qed.

(** The two loops establish the recurrence in every interior cell. *)
Lemma fill_matrix_filled (A : matrix) :
  build_matrix self sequence1 sequence2 g = Ok A →
  filled self sequence1 sequence2 g A.
Proof.
  unfold build_matrix, fill_matrix, range. intros Hrun.
  apply (for_each_seq_inv
           (λ i A, filled_before self sequence1 sequence2 g A i 1))
    in Hrun.
  - destruct Hrun as (Hshape & Hborder & Hcells).
    split; [exact Hshape |]. split; [exact Hborder |].
    intros i j Hi Hj. apply Hcells; [assumption.. | lia].
  - apply init_matrix_filled_before.
  - intros i B B' Hi HB Hrow.
    apply (for_each_seq_inv
             (λ j A, filled_before self sequence1 sequence2 g A i j))
      in Hrow.
    + destruct Hrow as (Hshape & Hborder & Hcells).
      split; [exact Hshape |]. split; [exact Hborder |].
      intros i' j' Hi' Hj' Hlt. apply Hcells; [assumption.. | lia].
    + exact HB.
    + intros j C C' Hj HC Hcell.
      apply (fill_cell_inv C C' i j); [lia | lia | exact HC | exact Hcell].
Qed.

(** The two loops return whenever the scoring scheme returns a score on
    the symbols of the sequences. *)
Lemma build_matrix_total :
  scorable self sequence1 sequence2 →
  ∃ A, build_matrix self sequence1 sequence2 g = Ok A.
Proof.
  intros Hscore. unfold build_matrix, fill_matrix, range.
  destruct (for_each_seq_total
              (λ i A, filled_before self sequence1 sequence2 g A i 1)
              (λ i A, for_each (seq 1 (n + 1 - 1))
                        (λ j A, fill_cell self sequence1 sequence2 g i j A) A)
              (m + 1 - 1) 1 (init_matrix g (m + 1) (n + 1)))
    as (A & HA & _); [apply init_matrix_filled_before | | eauto].
  intros i B Hi HB.
  destruct (for_each_seq_total
              (λ j A, filled_before self sequence1 sequence2 g A i j)
              (λ j A, fill_cell self sequence1 sequence2 g i j A)
              (n + 1 - 1) 1 B) as (B' & HB' & Hinv); [exact HB | |].
  - intros j C Hj HC.
    destruct (fill_cell_total C i j Hscore) as [C' HC'];
      [lia | lia | apply HC |].
    exists C'. split; [exact HC' |].
    apply (fill_cell_inv C C' i j); [lia | lia | exact HC | exact HC'].
  - exists B'. split; [exact HB' |].
    destruct Hinv as (Hshape & Hborder & Hcells).
    split; [exact Hshape |]. split; [exact Hborder |].
    intros i' j' Hi' Hj' Hlt. apply Hcells; [assumption.. | lia].
Qed.

End Matrix.

(** ** The backtrace *)

Section Backtrace.

Variable self : ScoringScheme.
Variables sequence1 sequence2 : string.
Variable g : Z.
Variable A : matrix.
Hypothesis A_filled : filled self sequence1 sequence2 g A.

Local Abbreviation m := (String.length sequence1).
Local Abbreviation n := (String.length sequence2).
Local Abbreviation step' := (step self sequence1 sequence2 g A).
Local Abbreviation in_range' := (in_range sequence1 sequence2).

Lemma step_in_range p q : in_range' p → step' p q → in_range' q.
Proof. intros Hp Hstep. destruct Hstep; cbn in *; lia. Qed.

Lemma step_distance p q : step' p q → (distance q < distance p)%nat.
Proof. intros Hstep. destruct Hstep; cbn; lia. Qed.

(** The body of the [for] loop returns: it appends the final alignment of
    a partial alignment on the border, or the moves of one inside. *)
Lemma backtrace_partial_spec p next alignments :
  in_range' p →
  ∃ moves finals,
    backtrace_partial self sequence1 sequence2 g A p (next, alignments)
    = Ok (next ++ moves, alignments ++ finals)
    ∧ Forall (step' p) moves ∧ Forall (final p) finals.
Proof.
  destruct p as [[[alignment1 alignment2] i] j]. intros [Hi Hj].
  unfold backtrace_partial.
  destruct (decide (i = 0%nat)) as [-> | Hi0].
  { exists [], [(alignment1, gaps j +:+ alignment2)].
    rewrite app_nil_r. split; [reflexivity |]. split; [constructor |].
    constructor; [| constructor]. left. auto. }
  destruct (decide (j = 0%nat)) as [-> | Hj0].
  { exists [], [(gaps i +:+ alignment1, alignment2)].
    rewrite app_nil_r. split; [reflexivity |]. split; [constructor |].
    constructor; [| constructor]. right. auto. }
  destruct A_filled as (Hshape & _ & Hcells).
  destruct (Hcells i j) as (c1 & c2 & p & d & u & l & G1 & G2 & Hp & Hd & Hu & Hl & Ha);
    [lia | lia |].
  rewrite Ha, Hd. unfold str_index. rewrite G1, G2.
  unfold mbind, result_bind. rewrite Hp, Hu, Hl.
  set (a := max3 (d + p) (u + g) (l + g)) in *.
  exists ((if (a =? d + p)%Z
           then [(String c1 alignment1, String c2 alignment2, i - 1, j - 1)%nat]
           else [])
          ++ (if (a =? u + g)%Z
              then [(String c1 alignment1, String gap alignment2, i - 1, j)%nat]
              else [])
          ++ (if (a =? l + g)%Z
              then [(String gap alignment1, String c2 alignment2, i, j - 1)%nat]
              else [])), [].
  split; [| split; [| constructor]].
  - rewrite app_nil_r. f_equal. f_equal.
    destruct (a =? d + p)%Z, (a =? u + g)%Z, (a =? l + g)%Z;
      rewrite ?app_nil_r, <- ?app_assoc; reflexivity.
  - repeat apply Forall_app_2.
    + destruct (a =? d + p)%Z eqn:E; [| constructor].
      constructor; [| constructor]. apply Z.eqb_eq in E.
      eapply step_diagonal; eauto.
    + destruct (a =? u + g)%Z eqn:E; [| constructor].
      constructor; [| constructor]. apply Z.eqb_eq in E.
      eapply step_up; eauto.
    + destruct (a =? l + g)%Z eqn:E; [| constructor].
      constructor; [| constructor]. apply Z.eqb_eq in E.
      eapply step_left; eauto.
Qed.

(** One iteration of the [while] loop. *)
Lemma backtrace_round partials :
  ∀ next alignments,
    Forall in_range' partials →
    ∃ moves finals,
      for_each partials (backtrace_partial self sequence1 sequence2 g A)
               (next, alignments)
      = Ok (next ++ moves, alignments ++ finals)
      ∧ Forall (λ q, ∃ p, p ∈ partials ∧ step' p q) moves
      ∧ Forall (λ a, ∃ p, p ∈ partials ∧ final p a) finals.
Proof.
  induction partials as [|p partials IH]; intros next alignments Hrange.
  - exists [], []. rewrite !app_nil_r. repeat split; constructor.
  - apply Forall_cons in Hrange as [Hp Hrange].
    destruct (backtrace_partial_spec p next alignments Hp)
      as (moves1 & finals1 & Hrun1 & Hmoves1 & Hfinals1).
    destruct (IH (next ++ moves1) (alignments ++ finals1) Hrange)
      as (moves2 & finals2 & Hrun2 & Hmoves2 & Hfinals2).
    exists (moves1 ++ moves2), (finals1 ++ finals2).
    cbn [for_each]. rewrite Hrun1. unfold mbind, result_bind.
    rewrite Hrun2, !app_assoc. split; [reflexivity |].
    split; apply Forall_app_2.
    + eapply Forall_impl; [exact Hmoves1 |].
      intros q Hq. exists p. split; [left | exact Hq].
    + eapply Forall_impl; [exact Hmoves2 |].
      intros q (p' & Hin & Hq). exists p'. split; [right; exact Hin | exact Hq].
    + eapply Forall_impl; [exact Hfinals1 |].
      intros a Ha. exists p. split; [left | exact Ha].
    + eapply Forall_impl; [exact Hfinals2 |].
      intros a (p' & Hin & Ha). exists p'. split; [right; exact Hin | exact Ha].
Qed.

(** The [while] loop returns, and keeps every property of the partial
    alignments that the moves keep; the alignments it appends are the
    final alignments of partial alignments with that property. *)
Lemma backtrace_inv (Good : partial → Prop) (GoodAl : alignment → Prop) :
  (∀ p, Good p → in_range' p) →
  (∀ p q, Good p → step' p q → Good q) →
  (∀ p a, Good p → final p a → GoodAl a) →
  ∀ rounds partials alignments,
    Forall Good partials → Forall GoodAl alignments →
    ∃ st, backtrace self sequence1 sequence2 g A rounds partials alignments
          = Ok st
          ∧ Forall Good st.1 ∧ Forall GoodAl st.2.
Proof.
  intros Hrange Hstep Hfinal.
  induction rounds as [|rounds IH]; intros partials alignments HP HA.
  - exists (partials, alignments). auto.
  - cbn [backtrace]. destruct partials as [|p partials].
    + exists ([], alignments). auto.
    + destruct (backtrace_round (p :: partials) [] alignments)
        as (moves & finals & Hrun & Hmoves & Hfinals).
      { eapply Forall_impl; [exact HP | exact Hrange]. }
      rewrite Hrun. unfold mbind, result_bind. cbn [fst snd app].
      apply IH.
      * apply Forall_forall. intros q Hq.
        rewrite Forall_forall in Hmoves.
        destruct (Hmoves q Hq) as (p' & Hin & Hpq).
        rewrite Forall_forall in HP. eauto.
      * apply Forall_app_2; [exact HA |].
        apply Forall_forall. intros a Ha.
        rewrite Forall_forall in Hfinals.
        destruct (Hfinals a Ha) as (p' & Hin & Hpa).
        rewrite Forall_forall in HP. eauto.
Qed.

(** The [while] loop has exited after [rounds] iterations when every
    partial alignment is at less than [rounds] moves from the border. *)
Lemma backtrace_exits :
  ∀ rounds partials alignments st,
    Forall (λ p, in_range' p ∧ (distance p < rounds)%nat) partials →
    backtrace self sequence1 sequence2 g A rounds partials alignments = Ok st →
    st.1 = [].
Proof.
  induction rounds as [|rounds IH]; intros partials alignments st HP Hrun.
  - destruct partials as [|p partials].
    + cbn in Hrun. inv_bind. reflexivity.
    + apply Forall_cons in HP as [[_ Hp] _]. lia.
  - cbn [backtrace] in Hrun. destruct partials as [|p partials].
    + inv_bind. reflexivity.
    + destruct (backtrace_round (p :: partials) [] alignments)
        as (moves & finals & Hround & Hmoves & _).
      { eapply Forall_impl; [exact HP |]. intros q [Hq _]. exact Hq. }
      rewrite Hround in Hrun. unfold mbind, result_bind in Hrun.
      cbn [fst snd app] in Hrun.
      apply (IH moves (alignments ++ finals) st); [| exact Hrun].
      apply Forall_forall. intros q Hq.
      rewrite Forall_forall in Hmoves.
      destruct (Hmoves q Hq) as (p' & Hin & Hpq).
      rewrite Forall_forall in HP. destruct (HP p' Hin) as [Hr Hd].
      split; [eapply step_in_range; eauto |].
      apply step_distance in Hpq. lia.
Qed.

End Backtrace.

(** ** The engine *)

(** Once the matrix is built the engine returns: the score is the last
    cell of the matrix, and the [while] loop has exited within the number
    of iterations the model runs. *)
Lemma needleman_wunsch_returns self sequence1 sequence2 g A :
  gap_extend_penalty self = Some g →
  build_matrix self sequence1 sequence2 g = Ok A →
  ∃ v st,
    np_get A (String.length sequence1) (String.length sequence2) = Ok v
    ∧ backtrace self sequence1 sequence2 g A
                (backtrace_rounds sequence1 sequence2)
                [("", "", String.length sequence1, String.length sequence2)] []
      = Ok st
    ∧ st.1 = []
    ∧ needleman_wunsch sequence1 sequence2 self = Ok (v, st.2).
Proof.
  intros Hg Hbuild.
  pose proof (fill_matrix_filled _ _ _ _ _ Hbuild) as Hfilled.
  destruct Hfilled as (Hshape & Hborder & Hcells).
  destruct (np_get_in_range A _ _ (String.length sequence1)
              (String.length sequence2) Hshape) as [v Hv]; [lia | lia |].
  destruct (backtrace_inv self sequence1 sequence2 g A
              (conj Hshape (conj Hborder Hcells))
              (in_range sequence1 sequence2) (λ _, True)
              (λ p H, H)
              (step_in_range self sequence1 sequence2 g A)
              (λ _ _ _ _, I)
              (backtrace_rounds sequence1 sequence2)
              [("", "", String.length sequence1, String.length sequence2)] [])
    as (st & Hrun & _ & _).
  { constructor; [cbn; lia | constructor]. }
  { constructor. }
  exists v, st. split; [exact Hv |]. split; [exact Hrun |]. split.
  - eapply (backtrace_exits self sequence1 sequence2 g A
              (conj Hshape (conj Hborder Hcells))); [| exact Hrun].
    constructor; [| constructor]. unfold backtrace_rounds. cbn. lia.
  - unfold needleman_wunsch. rewrite Hg, Hbuild.
    unfold mbind, result_bind.
    replace (String.length sequence1 + 1 - 1)%nat
      with (String.length sequence1) by lia.
    replace (String.length sequence2 + 1 - 1)%nat
      with (String.length sequence2) by lia.
    rewrite Hv, Hrun. reflexivity.
Qed.

(** C6: with [m = len(sequence1)], [n = len(sequence2)] and [g] the gap
    penalty the engine reads, the matrix [A] that the engine builds has
    [m + 1] rows of [n + 1] cells, [A[0][j] = g * j] and [A[i][0] = g * i]
    on the border, every interior cell equal to the maximum of the three
    terms of the recurrence, and the engine returns the score [A[m][n]].
    The matrix is built whenever the scoring scheme returns a score on the
    symbols of the sequences. *)
Theorem C6_matrix_recurrence :
  ∀ (self : ScoringScheme) (sequence1 sequence2 : string) (g : Z),
    gap_extend_penalty self = Some g →
    (scorable self sequence1 sequence2 →
     ∃ A, build_matrix self sequence1 sequence2 g = Ok A)
    ∧ ∀ A, build_matrix self sequence1 sequence2 g = Ok A →
        let m := String.length sequence1 in
        let n := String.length sequence2 in
        shape A (m + 1) (n + 1)
        ∧ (∀ j, (j ≤ n)%nat → np_get A 0 j = Ok (g * Z.of_nat j))
        ∧ (∀ i, (i ≤ m)%nat → np_get A i 0 = Ok (g * Z.of_nat i))
        ∧ (∀ i j, (1 ≤ i ≤ m)%nat → (1 ≤ j ≤ n)%nat →
             ∃ c1 c2 p d u l,
               String.get (i - 1) sequence1 = Some c1
               ∧ String.get (j - 1) sequence2 = Some c2
               ∧ call self (str1 c1) (str1 c2) = Ok p
               ∧ np_get A (i - 1) (j - 1) = Ok d
               ∧ np_get A (i - 1) j = Ok u
               ∧ np_get A i (j - 1) = Ok l
               ∧ np_get A i j = Ok (max3 (d + p) (u + g) (l + g)))
        ∧ ∃ v alignments,
            np_get A m n = Ok v
            ∧ needleman_wunsch sequence1 sequence2 self = Ok (v, alignments).
Proof.
  intros self sequence1 sequence2 g Hg. split.
  - apply build_matrix_total.
  - intros A Hbuild m n.
    destruct (fill_matrix_filled _ _ _ _ _ Hbuild)
      as (Hshape & [Hrow0 Hcol0] & Hcells).
    split; [exact Hshape |].
    split; [intros j Hj; apply Hrow0; lia |].
    split; [intros i Hi; apply Hcol0; lia |].
    split; [exact Hcells |].
    destruct (needleman_wunsch_returns self sequence1 sequence2 g A Hg Hbuild)
      as (v & st & Hv & _ & _ & Hnw).
    exists v, st.2. auto.
Qed.

(** The textbook example: the policy, the matrix and the score. *)
Lemma C6_witness :
  ∃ A, build_matrix textbook_scheme "GATTACA" "GCATGCU" (-1) = Ok A
       ∧ np_get A 7 7 = Ok 0
       ∧ ∃ alignments,
           needleman_wunsch "GATTACA" "GCATGCU" textbook_scheme
           = Ok (0, alignments).
Proof.
  eexists. split; [vm_compute; reflexivity |].
  split; [vm_compute; reflexivity |].
  destruct (C6_matrix_recurrence textbook_scheme "GATTACA" "GCATGCU" (-1)
              eq_refl) as [_ H].
  specialize (H _ ltac:(vm_compute; reflexivity)).
  destruct H as (_ & _ & _ & _ & v & alignments & Hv & Hnw).
  vm_compute in Hv. injection Hv as <-.
  exists alignments. exact Hnw.
Defined.

(** ** Re-scoring the returned alignments *)

Lemma gap_free_get (s : string) (k : nat) (c : ascii) :
  gap_free s = true → String.get k s = Some c → is_gap c = false.
Proof.
  revert k. induction s as [|a s IH]; intros k Hfree Hget; [discriminate |].
  cbn in Hfree. apply andb_prop in Hfree as [Ha Hs].
  destruct k as [|k]; cbn in Hget.
  - injection Hget as <-. apply negb_true_iff. exact Ha.
  - eapply IH; eauto.
Qed.

Lemma length_gaps_append (k : nat) (s : string) :
  String.length (gaps k +:+ s) = (k + String.length s)%nat.
Proof.
  induction k as [|k IH]; [reflexivity |].
  change (S (String.length (gaps k +:+ s)) = S (k + String.length s)).
  f_equal. exact IH.
Qed.

(** With no gap-start penalty the loop of [score] adds the scores of the
    columns. *)
Lemma score_loop_column_scores self s1 s2 :
  gap_start_penalty self = 0 →
  ∀ rest1 rest2 i acc,
    (∀ k, String.get k rest1 = String.get (i + k) s1) →
    (∀ k, String.get k rest2 = String.get (i + k) s2) →
    score_loop self s1 s2 i rest1 rest2 acc
    = t ← column_scores self rest1 rest2; Ok (acc + t).
Proof.
  intros Hgs.
  induction rest1 as [|c1 rest1 IH]; intros rest2 i acc H1 H2.
  { cbn. f_equal. lia. }
  destruct rest2 as [|c2 rest2].
  { cbn. f_equal. lia. }
  assert (G1 : String.get i s1 = Some c1).
  { rewrite <- (Nat.add_0_r i), <- H1. reflexivity. }
  assert (G2 : String.get i s2 = Some c2).
  { rewrite <- (Nat.add_0_r i), <- H2. reflexivity. }
  assert (IH' : ∀ acc', score_loop self s1 s2 (S i) rest1 rest2 acc'
                       = t ← column_scores self rest1 rest2; Ok (acc' + t)).
  { intros acc'. apply IH; intros k.
    - specialize (H1 (S k)). cbn [String.get] in H1. rewrite H1.
      f_equal. lia.
    - specialize (H2 (S k)). cbn [String.get] in H2. rewrite H2.
      f_equal. lia. }
  cbn [score_loop column_scores]. rewrite call_symbols.
  rewrite (gap_start_term_opens self s1 i c1 G1).
  rewrite (gap_start_term_opens self s2 i c2 G2).
  rewrite Hgs.
  destruct (is_gap c1), (is_gap c2); cbn [andb orb];
    unfold mbind, result_bind.
  - reflexivity.
  - rewrite IH'. unfold mbind, result_bind.
    destruct (column_scores self rest1 rest2); [| reflexivity].
    f_equal. destruct (opens_gap_run s1 i); lia.
  - rewrite IH'. unfold mbind, result_bind.
    destruct (column_scores self rest1 rest2); [| reflexivity].
    f_equal. destruct (opens_gap_run s2 i); lia.
  - destruct (symbol_score self c1 c2); [| reflexivity].
    rewrite IH'. unfold mbind, result_bind.
    destruct (column_scores self rest1 rest2); [| reflexivity].
    f_equal. lia.
Qed.

Lemma score_column_scores self a1 a2 :
  gap_start_penalty self = 0 → score self a1 a2 = column_scores self a1 a2.
Proof.
  intros Hgs. unfold score.
  rewrite (score_loop_column_scores self a1 a2 Hgs); [| reflexivity..].
  unfold mbind, result_bind.
  destruct (column_scores self a1 a2); reflexivity.
Qed.

(** C2 as stated fails for a policy with a gap-start penalty: on ["ABC"]
    and ["AC"] with match 1, mismatch -1, gap penalty -1 and gap-start
    penalty -5 the engine returns the score 1 and the alignment
    [("ABC", "A-C")], which the scorer scores -4: the recurrence of the
    engine never charges the opening of a gap. *)
Lemma C2_counterexample :
  needleman_wunsch "ABC" "AC"
    (set_gap_extend_penalty (ScoringScheme_init 1 (-1) (-1) (-5)) (-1))
  = Ok (1, [("ABC", "A-C")])
  ∧ score (set_gap_extend_penalty (ScoringScheme_init 1 (-1) (-1) (-5)) (-1))
          "ABC" "A-C" = Ok (-4).
Proof. vm_compute. split; reflexivity. Qed.

(** C2, amended: for sequences that hold no gap marker and a policy of
    finite scores (the scores of this embedding: no infinity, no NaN)
    whose gap-start penalty is 0 and whose [gap_penalty] is the gap penalty
    that the engine reads, every returned alignment whose two sides have
    the same length is scored by [score] at the score the engine returned.
    Such an alignment comes from a branch that ends at the origin, and
    [score] then makes, from 0, the additions that the backtrace has
    checked cell by cell. *)
Theorem C2_alignments_rescore :
  ∀ (self : ScoringScheme) (sequence1 sequence2 : string)
    (max_score : Z) (alignments : list alignment) (a1 a2 : string),
    gap_free sequence1 = true → gap_free sequence2 = true →
    gap_start_penalty self = 0 →
    gap_extend_penalty self = Some (gap_penalty self) →
    needleman_wunsch sequence1 sequence2 self = Ok (max_score, alignments) →
    (a1, a2) ∈ alignments →
    String.length a1 = String.length a2 →
    score self a1 a2 = Ok max_score.
Proof.
  intros self sequence1 sequence2 max_score alignments a1 a2
         Hfree1 Hfree2 Hgs Hg Hnw Hin Hlen.
  assert (Hbuild : ∃ A, build_matrix self sequence1 sequence2
                                     (gap_penalty self) = Ok A).
  { unfold needleman_wunsch in Hnw. rewrite Hg in Hnw.
    destruct (build_matrix self sequence1 sequence2 (gap_penalty self));
      [eauto | discriminate]. }
  destruct Hbuild as [A Hbuild].
  destruct (needleman_wunsch_returns self sequence1 sequence2 _ A Hg Hbuild)
    as (v & st & Hv & Hrun & _ & Hnw').
  rewrite Hnw in Hnw'. injection Hnw' as -> ->.
  pose proof (fill_matrix_filled _ _ _ _ _ Hbuild) as Hfilled.
  pose proof Hfilled as (Hshape & [Hrow0 _] & _).
  set (Good := λ p : partial,
         let '(al1, al2, i, j) := p in
         in_range sequence1 sequence2 p
         ∧ String.length al1 = String.length al2
         ∧ ∃ t a, column_scores self al1 al2 = Ok t
                  ∧ np_get A i j = Ok a ∧ a + t = v).
  set (GoodAl := λ a : alignment,
         String.length a.1 = String.length a.2 →
         column_scores self a.1 a.2 = Ok v).
  destruct (backtrace_inv self sequence1 sequence2 (gap_penalty self) A Hfilled
              Good GoodAl) with
    (rounds := backtrace_rounds sequence1 sequence2)
    (partials := [("", "", String.length sequence1, String.length sequence2)])
    (alignments := @nil alignment)
    as (st' & Hrun' & _ & Hgood).
  - intros [[[al1 al2] i] j] (Hr & _). exact Hr.
  - intros p q HGp Hstep.
    destruct Hstep as
      [al1 al2 i j c1 c2 a d p' Hi Hj G1 G2 Ha Hd Hp E
      |al1 al2 i j c1 a u Hi Hj G1 Ha Hu E
      |al1 al2 i j c2 a l Hi Hj G2 Ha Hl E];
      destruct HGp as ([Hri Hrj] & Hl12 & t & a' & Ht & Ha' & Hsum);
      rewrite Ha in Ha'; injection Ha' as <-.
    + split; [cbn; lia |]. split; [cbn; congruence |].
      exists (p' + t), d. cbn [column_scores]. rewrite Hp, Ht.
      split; [reflexivity |]. split; [exact Hd | lia].
    + split; [cbn; lia |]. split; [cbn; congruence |].
      exists (gap_penalty self + t), u. cbn [column_scores].
      rewrite call_symbols, (gap_free_get _ _ _ Hfree1 G1), Ht.
      split; [reflexivity |]. split; [exact Hu | lia].
    + split; [cbn; lia |]. split; [cbn; congruence |].
      exists (gap_penalty self + t), l. cbn [column_scores].
      rewrite call_symbols, (gap_free_get _ _ _ Hfree2 G2), Ht.
      split; [reflexivity |]. split; [exact Hl | lia].
  - intros [[[al1 al2] i] j] a
           ([Hri Hrj] & Hl12 & t & a' & Ht & Ha' & Hsum) Hfinal.
    destruct Hfinal as [[-> ->] | (Hi & -> & ->)]; intros Hlen'; cbn in Hlen'.
    + rewrite length_gaps_append in Hlen'.
      assert (j = 0)%nat as -> by lia.
      change (column_scores self al1 al2 = Ok v).
      rewrite Hrow0 in Ha' by lia. injection Ha' as <-.
      rewrite Ht. f_equal. lia.
    + rewrite length_gaps_append in Hlen'. lia.
  - constructor; [| constructor].
    split; [cbn; lia |]. split; [reflexivity |].
    exists 0, v. split; [reflexivity |]. split; [exact Hv | lia].
  - constructor.
  - rewrite Hrun in Hrun'. injection Hrun' as <-.
    rewrite score_column_scores by exact Hgs.
    rewrite Forall_forall in Hgood.
    apply (Hgood (a1, a2) Hin). exact Hlen.
Qed.

(** The engine on ["ABC"] and ["AC"] with the textbook policy. *)
Lemma C2_witness : score textbook_scheme "ABC" "A-C" = Ok 1.
Proof.
  apply (C2_alignments_rescore textbook_scheme "ABC" "AC" 1
           [("ABC", "A-C")] "ABC" "A-C");
    try reflexivity.
  apply list_elem_of_here.
Defined.

(** ** Loading a substitution matrix *)

Lemma for_each_inv {X St : Type} (P : St → Prop) (body : X → St → result St) :
  (∀ x t t', P t → body x t = Ok t' → P t') →
  ∀ xs s s', P s → for_each xs body s = Ok s' → P s'.
Proof.
  intros Hbody. induction xs as [|x xs IH]; intros s s' HP Hrun; cbn in Hrun.
  - injection Hrun as <-. exact HP.
  - apply bind_Ok in Hrun as (t & Hx & Hrun). eauto.
Qed.

Lemma for_each_app {X St : Type} (body : X → St → result St) xs ys s :
  for_each (xs ++ ys) body s = s' ← for_each xs body s; for_each ys body s'.
Proof.
  revert s. induction xs as [|x xs IH]; intros s; cbn; [reflexivity |].
  destruct (body x s) as [t|e]; unfold mbind, result_bind; [| reflexivity].
  apply IH.
Qed.

Lemma np_set_out_of_range (M : matrix) (r c i j : nat) (v : Z) :
  shape M r c → (c ≤ j)%nat → np_set M i j v = Raise IndexError.
Proof.
  intros [_ Hrows] Hj. unfold np_set.
  destruct (M !! i) as [row|] eqn:E; [| reflexivity].
  rewrite (Hrows i row E). destruct (decide (j < c)%nat); [lia | reflexivity].
Qed.

Section LoadMatrixFacts.

Variable float : string → result Z.
Variable i n : nat.
Hypothesis i_lt_n : (i < n)%nat.

Local Abbreviation cell := (λ (js : nat * string) (M : matrix),
                             v ← float js.2; np_set M i js.1 v).

(** The numeric entries of a row that fit in the matrix are stored, and
    the loop goes on with the entries that follow. *)
Lemma load_cells_prefix (good : list string) :
  ∀ (k : nat) (M : matrix),
    Forall (numeric float) good → (k + length good ≤ n)%nat → shape M n n →
    ∃ M', shape M' n n
          ∧ ∀ rest,
              for_each (zip (seq k (length (good ++ rest))) (good ++ rest))
                       cell M
              = for_each (zip (seq (k + length good) (length rest)) rest)
                         cell M'.
Proof.
  induction good as [|tok good IH]; intros k M Hnum Hlen Hshape.
  - exists M. split; [exact Hshape |]. intros rest. cbn.
    rewrite Nat.add_0_r. reflexivity.
  - apply Forall_cons in Hnum as [[v Hv] Hnum]. cbn in Hlen.
    destruct (np_set_in_range M n n i k v Hshape) as [M1 HM1]; [lia | lia |].
    destruct (IH (S k) M1 Hnum) as (M' & Hshape' & Hrest);
      [lia | eapply np_set_shape; eauto |].
    exists M'. split; [exact Hshape' |]. intros rest.
    cbn. rewrite Hv. unfold mbind, result_bind. rewrite HM1.
    rewrite Hrest.
    replace (k + S (length good))%nat with (S k + length good)%nat by lia.
    reflexivity.
Qed.

Lemma load_cells_accept (row : list string) (M : matrix) :
  Forall (numeric float) row → (length row ≤ n)%nat → shape M n n →
  ∃ M', for_each (enumerate row) cell M = Ok M' ∧ shape M' n n.
Proof.
  intros Hnum Hlen Hshape.
  destruct (load_cells_prefix row 0 M Hnum) as (M' & Hshape' & Hrest);
    [lia | exact Hshape |].
  exists M'. split; [| exact Hshape'].
  specialize (Hrest []). rewrite app_nil_r in Hrest.
  unfold enumerate. rewrite Hrest. reflexivity.
Qed.

Lemma load_cells_ValueError (good rest : list string) (bad : string)
    (M : matrix) :
  Forall (numeric float) good → (length good ≤ n)%nat → shape M n n →
  float bad = Raise ValueError →
  for_each (enumerate (good ++ bad :: rest)) cell M = Raise ValueError.
Proof.
  intros Hnum Hlen Hshape Hbad.
  destruct (load_cells_prefix good 0 M Hnum) as (M' & _ & Hrest);
    [lia | exact Hshape |].
  unfold enumerate. rewrite Hrest. cbn. rewrite Hbad. reflexivity.
Qed.

Lemma load_cells_IndexError (good rest : list string) (extra : string)
    (M : matrix) :
  Forall (numeric float) good → length good = n → shape M n n →
  numeric float extra →
  for_each (enumerate (good ++ extra :: rest)) cell M = Raise IndexError.
Proof.
  intros Hnum Hlen Hshape [v Hv].
  destruct (load_cells_prefix good 0 M Hnum) as (M' & Hshape' & Hrest);
    [lia | exact Hshape |].
  unfold enumerate. rewrite Hrest. cbn. rewrite Hv.
  unfold mbind, result_bind.
  rewrite (np_set_out_of_range M' n n i _ v Hshape'); [reflexivity | lia].
Qed.

End LoadMatrixFacts.

Lemma load_row_shape float idx line (M M' : matrix) (r c : nat) :
  shape M r c → load_row float idx line M = Ok M' → shape M' r c.
Proof.
  intros Hshape. unfold load_row.
  destruct (split line) as [|symbol row]; [discriminate |].
  destruct (idx !! symbol) as [i|]; [| discriminate].
  apply (for_each_inv (λ M, shape M r c)); [| exact Hshape].
  intros js t t' Ht Hbody.
  apply bind_Ok in Hbody as (v & _ & Hset).
  eapply np_set_shape; eauto.
Qed.

Lemma load_rows_shape float idx rows (M M' : matrix) (r c : nat) :
  shape M r c → for_each rows (load_row float idx) M = Ok M' → shape M' r c.
Proof.
  apply (for_each_inv (λ M, shape M r c)).
  intros line t t' Ht. apply load_row_shape. exact Ht.
Qed.

Lemma np_zeros_shape (r c : nat) : shape (np_zeros r c) r c.
Proof.
  unfold np_zeros. split; [apply length_replicate |].
  intros i row Hrow. apply lookup_replicate_1 in Hrow as [-> _].
  apply length_replicate.
Qed.

Lemma load_row_accept float idx n line (M : matrix) :
  acceptable_row float idx n line → shape M n n →
  ∃ M', load_row float idx line M = Ok M' ∧ shape M' n n.
Proof.
  intros (symbol & row & i & Hsplit & Hidx & Hi & Hnum & Hlen) Hshape.
  unfold load_row. rewrite Hsplit, Hidx.
  apply load_cells_accept; assumption.
Qed.

Lemma load_rows_accept float idx n rows :
  ∀ M : matrix,
    Forall (acceptable_row float idx n) rows → shape M n n →
    ∃ M', for_each rows (load_row float idx) M = Ok M' ∧ shape M' n n.
Proof.
  induction rows as [|line rows IH]; intros M Hrows Hshape.
  - exists M. auto.
  - apply Forall_cons in Hrows as [Hline Hrows].
    destruct (load_row_accept float idx n line M Hline Hshape)
      as (M1 & HM1 & Hshape1).
    destruct (IH M1 Hrows Hshape1) as (M' & HM' & Hshape').
    exists M'. cbn. rewrite HM1. auto.
Qed.

(** The dictionary comprehension of line 85, started at index [k] on the
    dictionary [m0]. *)
Lemma index_from_absent (s : string) (tokens : list string) :
  ∀ (k : nat) (m0 : gmap string nat),
    s ∉ tokens →
    foldl (λ m p, <[p.2 := p.1]> m) m0 (zip (seq k (length tokens)) tokens)
      !! s = m0 !! s.
Proof.
  induction tokens as [|t tokens IH]; intros k m0 Hs; [reflexivity |].
  apply not_elem_of_cons in Hs as [Hne Hs]. cbn.
  rewrite IH by exact Hs. apply lookup_insert_ne. congruence.
Qed.

Lemma index_from_last (s : string) (tokens : list string) :
  ∀ (k i : nat) (m0 : gmap string nat),
    tokens !! i = Some s →
    (∀ i', (i < i')%nat → tokens !! i' ≠ Some s) →
    foldl (λ m p, <[p.2 := p.1]> m) m0 (zip (seq k (length tokens)) tokens)
      !! s = Some (k + i)%nat.
Proof.
  induction tokens as [|t tokens IH]; intros k i m0 Hi Hlast; [discriminate |].
  cbn. destruct i as [|i].
  - injection Hi as ->.
    rewrite index_from_absent.
    + cbn. rewrite lookup_insert_eq. f_equal. lia.
    + intros Hin. apply list_elem_of_lookup_1 in Hin as [j Hj].
      apply (Hlast (S j)); [lia | exact Hj].
  - rewrite (IH (S k) i); [f_equal; lia | exact Hi |].
    intros i' Hi'. apply (Hlast (S i')). lia.
Qed.

Lemma index_from_size (tokens : list string) :
  ∀ (k : nat) (m0 : gmap string nat),
    NoDup tokens → (∀ t, t ∈ tokens → m0 !! t = None) →
    size (foldl (λ m p, <[p.2 := p.1]> m) m0
                (zip (seq k (length tokens)) tokens))
    = (size m0 + length tokens)%nat.
Proof.
  induction tokens as [|t tokens IH]; intros k m0 Hnd Hfresh; cbn; [lia |].
  apply NoDup_cons in Hnd as [Ht Hnd].
  rewrite IH; [| exact Hnd |].
  - cbn. rewrite map_size_insert_None by (apply Hfresh; left). lia.
  - intros t' Ht'. cbn. rewrite lookup_insert_ne by congruence.
    apply Hfresh. right. exact Ht'.
Qed.

Lemma index_symbols_NoDup (tokens : list string) (s : string) (i : nat) :
  NoDup tokens →
  index_symbols tokens !! s = Some i ↔ tokens !! i = Some s.
Proof.
  intros Hnd. unfold index_symbols, enumerate. split.
  - intros Hidx.
    destruct (decide (s ∈ tokens)) as [Hin | Hnot].
    + apply list_elem_of_lookup_1 in Hin as [j Hj].
      rewrite (index_from_last s tokens 0 j) in Hidx;
        [cbn in Hidx; congruence | exact Hj |].
      intros j' Hlt Hj'.
      pose proof (NoDup_lookup _ _ _ _ Hnd Hj Hj'). lia.
    + rewrite index_from_absent, lookup_empty in Hidx by exact Hnot.
      discriminate.
  - intros Hi. rewrite (index_from_last s tokens 0 i); [reflexivity | exact Hi |].
    intros i' Hlt Hi'.
    pose proof (NoDup_lookup _ _ _ _ Hnd Hi Hi'). lia.
Qed.

Lemma index_symbols_size (tokens : list string) :
  NoDup tokens → size (index_symbols tokens) = length tokens.
Proof.
  intros Hnd. unfold index_symbols, enumerate.
  rewrite index_from_size; [rewrite map_size_empty; lia | exact Hnd |].
  intros t _. apply lookup_empty.
Qed.

Lemma read_headline_comments (f : list string) :
  Forall is_comment f → read_headline f = Raise IndexError.
Proof.
  induction f as [|line f IH]; intros Hf; [reflexivity |].
  apply Forall_cons in Hf as [[rest ->] Hf]. cbn. exact (IH Hf).
Qed.

(** A data line that fails makes [load_matrix] fail in the same way, when
    the lines before it load. *)
Lemma load_matrix_row_raises float self f headline pre line post
    (M : matrix) (e : exception) :
  read_headline f = Ok (headline, pre ++ line :: post) →
  for_each pre (load_row float (index_symbols (split headline)))
           (np_zeros (size (index_symbols (split headline)))
                     (size (index_symbols (split headline)))) = Ok M →
  load_row float (index_symbols (split headline)) line M = Raise e →
  load_matrix float self f = Raise e.
Proof.
  intros Hhead Hpre Hline. unfold load_matrix. rewrite Hhead.
  unfold mbind at 1, result_bind at 1. cbn [fst snd].
  rewrite for_each_app, Hpre. unfold mbind, result_bind.
  cbn [for_each]. rewrite Hline. reflexivity.
Qed.

(** C8 as stated fails: a file whose first data row holds one score
    instead of two loads, the missing cell staying 0; a file with no
    header line loads too, its only line being taken for the header. *)
Lemma C8_counterexample :
  (∃ idx, load_matrix float_of_literal ScoringScheme_default
            ["A C" +:+ nl; "A 2" +:+ nl; "C -1 2" +:+ nl]
          = Ok (set_matrix ScoringScheme_default idx [[2; 0]; [-1; 2]]))
  ∧ (∃ idx, load_matrix float_of_literal ScoringScheme_default
              ["A 2 -1" +:+ nl]
            = Ok (set_matrix ScoringScheme_default idx
                             [[0; 0; 0]; [0; 0; 0]; [0; 0; 0]])).
Proof. split; eexists; vm_compute; reflexivity. Qed.

Lemma np_zeros_get (r c i j : nat) :
  (i < r)%nat → (j < c)%nat → np_get (np_zeros r c) i j = Ok 0.
Proof.
  intros Hi Hj. apply np_get_Ok. exists (replicate c 0).
  unfold np_zeros. split; apply lookup_replicate_2; assumption.
Qed.

(** The loop over the entries of a data line for the row [i], from the
    column [k] on, leaves the other rows and the columns that it does not
    reach as they were. *)
Lemma load_cells_kept float (i : nat) (row : list string) :
  ∀ (k : nat) (M M' : matrix),
    for_each (zip (seq k (length row)) row)
             (λ js M, v ← float js.2; np_set M i js.1 v) M = Ok M' →
    ∀ i' j', i' ≠ i ∨ (j' < k)%nat ∨ (k + length row ≤ j')%nat →
             np_get M' i' j' = np_get M i' j'.
Proof.
  induction row as [|tok row IH]; intros k M M' Hrun i' j' Hij.
  - cbn in Hrun. injection Hrun as <-. reflexivity.
  - cbn in Hrun. apply bind_Ok in Hrun as (M1 & Hcell & Hrun).
    apply bind_Ok in Hcell as (v & _ & Hset). cbn [length] in Hij.
    rewrite (IH (S k) M1 M' Hrun) by lia.
    apply (np_get_set_ne _ _ _ _ _ _ _ Hset).
    intros E. injection E. intros. lia.
Qed.

Lemma load_row_kept float idx line (M M' : matrix) (i j : nat) :
  load_row float idx line M = Ok M' →
  cell_not_given idx [line] i j →
  np_get M' i j = np_get M i j.
Proof.
  intros Hrun Hnot. unfold load_row in Hrun.
  destruct (split line) as [|symbol row] eqn:Hsplit; [discriminate |].
  destruct (idx !! symbol) as [i'|] eqn:Hidx; [| discriminate].
  apply (load_cells_kept float i' row 0 M M' Hrun).
  destruct (decide (i = i')) as [-> | Hne]; [| left; exact Hne].
  right. right.
  apply (Hnot line symbol row); [left | exact Hsplit | exact Hidx].
Qed.

Lemma load_rows_kept float idx (rows : list string) (i j : nat) :
  ∀ (M M' : matrix),
    for_each rows (load_row float idx) M = Ok M' →
    cell_not_given idx rows i j →
    np_get M' i j = np_get M i j.
Proof.
  induction rows as [|line rows IH]; intros M M' Hrun Hnot.
  - cbn in Hrun. injection Hrun as <-. reflexivity.
  - cbn in Hrun. apply bind_Ok in Hrun as (M1 & Hline & Hrun).
    rewrite (IH M1 M' Hrun).
    + apply (load_row_kept float idx line M M1 i j Hline).
      intros line' symbol row Hin. apply list_elem_of_singleton in Hin as ->.
      apply Hnot. left.
    + intros line' symbol row Hin. apply Hnot. right. exact Hin.
Qed.

(** With a header that repeats no symbol every index is below the number
    of symbols. *)
Lemma index_symbols_lt (tokens : list string) (s : string) (i : nat) :
  NoDup tokens → index_symbols tokens !! s = Some i →
  (i < size (index_symbols tokens))%nat.
Proof.
  intros Hnd Hidx. rewrite (index_symbols_size tokens Hnd).
  apply (index_symbols_NoDup tokens s i Hnd) in Hidx.
  apply lookup_lt_Some in Hidx. exact Hidx.
Qed.

Lemma loadable_acceptable float (tokens : list string) (line : string) :
  NoDup tokens →
  loadable_row float (index_symbols tokens) (size (index_symbols tokens)) line →
  acceptable_row float (index_symbols tokens) (size (index_symbols tokens))
                 line.
Proof.
  intros Hnd (symbol & row & Hsplit & [i Hidx] & Hnum & Hlen).
  exists symbol, row, i. repeat split; try assumption.
  eapply index_symbols_lt; eauto.
Qed.

(** A data line for a row that the matrix does not have fails at its
    first entry. *)
Lemma load_row_no_such_row float idx line symbol tok rest
    (M : matrix) (n i : nat) :
  shape M n n → split line = symbol :: tok :: rest →
  idx !! symbol = Some i → (n ≤ i)%nat → numeric float tok →
  load_row float idx line M = Raise IndexError.
Proof.
  intros [Hlen _] Hsplit Hidx Hi [v Hv].
  unfold load_row. rewrite Hsplit, Hidx. cbn. rewrite Hv.
  unfold mbind, result_bind, np_set.
  rewrite lookup_ge_None_2 by lia. reflexivity.
Qed.

(** C8, amended: [load_matrix] fails at load time, and [main] with it
    before the engine runs, on these inputs.  A file with no line but
    comment lines raises [IndexError].  With a header, when the lines
    before a data line load, that line makes [load_matrix] raise
    [IndexError] when it is blank and [KeyError] when its leading symbol is
    not in the header alphabet.  For a header that repeats no symbol, of
    [n] symbols, a data line with a leading symbol of the header raises
    [ValueError] at its first entry that is no number, when at most [n]
    entries precede it, and [IndexError] when its first [n + 1] entries
    are numbers.  (For a header that repeats a symbol, a data line whose
    symbol has an index that is not below the number of distinct symbols
    raises [IndexError] at a first numeric entry.)  Missing rows and
    missing entries are not detected: for a header that repeats no symbol,
    a file whose data lines each start with a symbol of the header and
    hold at most [n] numeric entries loads into an [n] by [n] matrix, and
    every cell that no data line gives is 0. *)
Theorem C8_load_matrix_failures :
  ∀ (float : string → result Z) (self : ScoringScheme) (f : list string),
    (Forall is_comment f → load_matrix float self f = Raise IndexError)
    ∧ (∀ args e, args_matrix_file args = Some f →
                 load_matrix float (configure args) f = Raise e →
                 main float args = Raise e)
    ∧ ∀ headline rows,
        read_headline f = Ok (headline, rows) →
        let idx := index_symbols (split headline) in
        let n := size idx in
        (NoDup (split headline) → Forall (loadable_row float idx n) rows →
         ∃ M, load_matrix float self f = Ok (set_matrix self idx M)
              ∧ shape M n n
              ∧ ∀ i j, (i < n)%nat → (j < n)%nat →
                       cell_not_given idx rows i j → np_get M i j = Ok 0)
        ∧ ∀ pre line post (M : matrix),
            rows = pre ++ line :: post →
            for_each pre (load_row float idx) (np_zeros n n) = Ok M →
            (split line = [] → load_matrix float self f = Raise IndexError)
            ∧ (∀ symbol row,
                 split line = symbol :: row → idx !! symbol = None →
                 load_matrix float self f = Raise KeyError)
            ∧ (NoDup (split headline) →
               ∀ symbol good bad rest,
                 split line = symbol :: good ++ bad :: rest →
                 is_Some (idx !! symbol) →
                 Forall (numeric float) good → (length good ≤ n)%nat →
                 float bad = Raise ValueError →
                 load_matrix float self f = Raise ValueError)
            ∧ (NoDup (split headline) →
               ∀ symbol good extra rest,
                 split line = symbol :: good ++ extra :: rest →
                 is_Some (idx !! symbol) →
                 Forall (numeric float) good → length good = n →
                 numeric float extra →
                 load_matrix float self f = Raise IndexError)
            ∧ (∀ symbol i tok rest,
                 split line = symbol :: tok :: rest →
                 idx !! symbol = Some i → (n ≤ i)%nat →
                 numeric float tok →
                 load_matrix float self f = Raise IndexError).
Proof.
  intros float self f. split; [| split].
  { intros Hf. unfold load_matrix. rewrite (read_headline_comments f Hf).
    reflexivity. }
  { intros args e Hfile Hload. unfold main. rewrite Hfile, Hload.
    reflexivity. }
  intros headline rows Hhead idx n. split.
  { intros Hnd Hrows.
    destruct (load_rows_accept float idx n rows (np_zeros n n))
      as (M & HM & Hshape); [| apply np_zeros_shape |].
    { eapply Forall_impl; [exact Hrows |].
      intros line. apply loadable_acceptable. exact Hnd. }
    exists M. split; [| split; [exact Hshape |]].
    - unfold load_matrix. rewrite Hhead.
      unfold mbind at 1, result_bind at 1. cbn [fst snd].
      fold idx. fold n. rewrite HM. reflexivity.
    - intros i j Hi Hj Hnot.
      rewrite (load_rows_kept float idx rows i j _ M HM Hnot).
      apply np_zeros_get; assumption. }
  intros pre line post M -> Hpre.
  assert (Hshape : shape M n n).
  { eapply load_rows_shape; [apply np_zeros_shape | exact Hpre]. }
  assert (Hraise : ∀ e, load_row float idx line M = Raise e →
                        load_matrix float self f = Raise e).
  { intros e. apply (load_matrix_row_raises _ _ _ _ _ _ _ _ _ Hhead Hpre). }
  split; [| split; [| split; [| split]]].
  - intros Hsplit. apply Hraise. unfold load_row. rewrite Hsplit. reflexivity.
  - intros symbol row Hsplit Hidx. apply Hraise.
    unfold load_row. rewrite Hsplit, Hidx. reflexivity.
  - intros Hnd symbol good bad rest Hsplit [i Hidx] Hnum Hlen Hbad.
    pose proof (index_symbols_lt _ _ _ Hnd Hidx) as Hi.
    apply Hraise. unfold load_row. rewrite Hsplit, Hidx.
    apply (load_cells_ValueError float i n Hi); assumption.
  - intros Hnd symbol good extra rest Hsplit [i Hidx] Hnum Hlen Hextra.
    pose proof (index_symbols_lt _ _ _ Hnd Hidx) as Hi.
    apply Hraise. unfold load_row. rewrite Hsplit, Hidx.
    apply (load_cells_IndexError float i n Hi); assumption.
  - intros symbol i tok rest Hsplit Hidx Hi Htok. apply Hraise.
    eapply load_row_no_such_row; eauto.
Qed.

(** A file whose second data line starts with a symbol that the header
    does not list. *)
Lemma C8_witness :
  load_matrix float_of_literal ScoringScheme_default
    ["# scores" +:+ nl; "A C" +:+ nl; "A 2 -1" +:+ nl; "G -1 2" +:+ nl]
  = Raise KeyError.
Proof.
  destruct (C8_load_matrix_failures float_of_literal ScoringScheme_default
              ["# scores" +:+ nl; "A C" +:+ nl; "A 2 -1" +:+ nl;
               "G -1 2" +:+ nl]) as (_ & _ & H).
  destruct (H ("A C" +:+ nl) ["A 2 -1" +:+ nl; "G -1 2" +:+ nl] eq_refl)
    as [_ H'].
  destruct (H' ["A 2 -1" +:+ nl] ("G -1 2" +:+ nl) [] [[2; -1]; [0; 0]]
               eq_refl ltac:(vm_compute; reflexivity))
    as (_ & Hkey & _).
  apply (Hkey "G" ["-1"; "2"]); vm_compute; reflexivity.
Defined.

(** ** The engine on concrete inputs *)

(** C4: [__init__] creates [match_score], [mismatch_penalty], [gap_penalty]
    and [gap_start_penalty] but not [gap_extend_penalty], which
    [needleman_wunsch] reads first: on a freshly constructed scheme, for
    every pair of sequences, the call raises [AttributeError] and returns
    nothing. *)
Theorem C4_fresh_scheme_raises_AttributeError :
  ∀ (m mm g gs : Z) (sequence1 sequence2 : string),
    gap_extend_penalty (ScoringScheme_init m mm g gs) = None
    ∧ needleman_wunsch sequence1 sequence2 (ScoringScheme_init m mm g gs)
      = Raise AttributeError.
Proof. intros. split; reflexivity. Qed.

(** C3: on [""] and ["ABC"] with a gap penalty of -2 the engine returns
    the score -6 and one alignment, which is [("", "---")] and not
    [("---", "ABC")]: at [i == 0] line 42 puts the [j] gap markers in front
    of the second side and does not emit the symbols of [sequence2]. *)
Theorem C3_empty_against_ABC :
  ∀ self : ScoringScheme,
    needleman_wunsch "" "ABC" (set_gap_extend_penalty self (-2))
    = Ok (-6, [("", "---")])
    ∧ ("", "---") ≠ ("---", "ABC").
Proof. intros self. split; [reflexivity | discriminate]. Qed.

(** C1: two inputs on which a returned alignment does not give back the
    input when its gap markers are deleted.  On [("", "ABC")] the backtrace
    reaches [i == 0] with [j = 3]; on [("AB", "B")] it reaches [j == 0] with
    [i = 1]. *)
Theorem C1_border_alignments_lose_symbols :
  (needleman_wunsch "" "ABC" (set_gap_extend_penalty ScoringScheme_default (-2))
   = Ok (-6, [("", "---")])
   ∧ remove_gaps "---" = "" ∧ remove_gaps "---" ≠ "ABC")
  ∧ (needleman_wunsch "AB" "B" textbook_scheme = Ok (0, [("-B", "B")])
     ∧ remove_gaps "-B" = "B" ∧ remove_gaps "-B" ≠ "AB").
Proof. vm_compute. repeat split; discriminate. Qed.

(** C5 as stated fails: with the default constructor alone the call raises
    [AttributeError]; with [gap_extend_penalty = -1] assigned the score is 0
    but no returned alignment has two sides of length 7 free of gap
    markers. *)
Lemma C5_counterexample :
  needleman_wunsch "GATTACA" "GCATGCU" ScoringScheme_default
  = Raise AttributeError
  ∧ ¬ ∃ (alignments : list alignment) (a : alignment),
        needleman_wunsch "GATTACA" "GCATGCU" textbook_scheme
        = Ok (0, alignments)
        ∧ a ∈ alignments
        ∧ String.length a.1 = 7%nat ∧ String.length a.2 = 7%nat
        ∧ gap_free a.1 = true ∧ gap_free a.2 = true.
Proof.
  split; [reflexivity |].
  intros (alignments & a & Hnw & Hin & Hl1 & _).
  vm_compute in Hnw. inversion Hnw; subst; clear Hnw.
  repeat (apply elem_of_cons in Hin; destruct Hin as [-> | Hin];
          [vm_compute in Hl1; discriminate |]).
  apply elem_of_nil in Hin. exact Hin.
Qed.

(** C5, amended: with match 1, mismatch -1 and the gap penalty -1 assigned
    to [gap_extend_penalty], the engine returns the score 0 and three
    alignments; each has two sides of length 8 with one gap marker on each
    side. *)
Theorem C5_textbook_example :
  ∃ alignments : list alignment,
    needleman_wunsch "GATTACA" "GCATGCU" textbook_scheme = Ok (0, alignments)
    ∧ alignments = [("G-ATTACA", "GCA-TGCU"); ("G-ATTACA", "GCAT-GCU");
                    ("G-ATTACA", "GCATG-CU")]
    ∧ Forall (λ a : alignment,
                String.length a.1 = 8%nat ∧ String.length a.2 = 8%nat
                ∧ count_gaps a.1 = 1%nat ∧ count_gaps a.2 = 1%nat) alignments.
Proof.
  eexists. split; [vm_compute; reflexivity |]. split; [reflexivity |].
  repeat constructor.
Qed.

(** * Further properties of the scorer *)

Lemma sum_terms_ext (term term' : nat → result Z) :
  ∀ n i acc,
    (∀ k, (i ≤ k < i + n)%nat → term k = term' k) →
    sum_terms term i n acc = sum_terms term' i n acc.
Proof.
  induction n as [|n IH]; intros i acc Hext; [reflexivity |].
  rewrite !sum_terms_S, (Hext i) by lia.
  destruct (term' i) as [t|e]; unfold mbind, result_bind; [| reflexivity].
  apply IH. intros k Hk. apply Hext. lia.
Qed.

Lemma get_append_l (s t : string) (k : nat) :
  (k < String.length s)%nat → String.get k (s +:+ t) = String.get k s.
Proof. intros Hk. symmetry. apply append_correct1. exact Hk. Qed.

Lemma opens_gap_run_append (s t : string) (k : nat) :
  (k ≤ String.length s)%nat →
  opens_gap_run (s +:+ t) k = opens_gap_run s k.
Proof.
  intros Hk. destruct k as [|k]; [reflexivity |].
  cbn [opens_gap_run]. rewrite get_append_l by lia. reflexivity.
Qed.

Lemma length_append (s t : string) :
  String.length (s +:+ t) = (String.length s + String.length t)%nat.
Proof.
  induction s as [|c s IH]; [reflexivity |].
  change (S (String.length (s +:+ t)) = S (String.length s + String.length t)).
  f_equal. exact IH.
Qed.

(** The scorer stops at the end of the shorter sequence: what follows the
    common length in the longer one does not change the result. *)
Theorem score_ignores_longer_tail :
  ∀ (self : ScoringScheme) (s1 s2 tail : string),
    (String.length s1 ≤ String.length s2)%nat →
    score self s1 (s2 +:+ tail) = score self s1 s2
    ∧ score self (s2 +:+ tail) s1 = score self s2 s1.
Proof.
  intros self s1 s2 tail Hlen. rewrite !score_sum_positions.
  unfold sum_positions. rewrite length_append.
  replace (Nat.min (String.length s1) (String.length s2 + String.length tail))
    with (String.length s1) by lia.
  replace (Nat.min (String.length s2 + String.length tail) (String.length s1))
    with (String.length s1) by lia.
  replace (Nat.min (String.length s1) (String.length s2))
    with (String.length s1) by lia.
  replace (Nat.min (String.length s2) (String.length s1))
    with (String.length s1) by lia.
  split; apply sum_terms_ext; intros k Hk; unfold position_term;
    rewrite get_append_l, opens_gap_run_append by lia; reflexivity.
Qed.

Lemma score_ignores_longer_tail_witness :
  score ScoringScheme_default "AC" ("A-" +:+ "--GT") = Ok 0
  ∧ score ScoringScheme_default "AC" "A-" = Ok 0.
Proof.
  destruct (score_ignores_longer_tail ScoringScheme_default "AC" "A-" "--GT"
              ltac:(cbn; lia)) as [H _].
  split; [rewrite H |]; vm_compute; reflexivity.
Defined.

Lemma no_matrix_symmetric (self : ScoringScheme) :
  scoring_matrix self = None → symmetric_scheme self.
Proof.
  intros HM a b. unfold symbol_score. rewrite HM.
  rewrite (Ascii.eqb_sym a b). reflexivity.
Qed.

Lemma position_term_swap self s1 s2 k :
  symmetric_scheme self →
  position_term self s1 s2 k = position_term self s2 s1 k.
Proof.
  intros Hsym. unfold position_term.
  destruct (String.get k s1) as [c1|], (String.get k s2) as [c2|];
    try reflexivity.
  destruct (is_gap c1), (is_gap c2); cbn [andb]; try reflexivity.
  apply Hsym.
Qed.

(** Swapping the two aligned sequences does not change their score when
    the policy scores a pair of symbols and the swapped pair alike, as
    the match and mismatch constants do (lemma [no_matrix_symmetric]). *)
Theorem score_swap :
  ∀ (self : ScoringScheme) (s1 s2 : string),
    symmetric_scheme self → score self s1 s2 = score self s2 s1.
Proof.
  intros self s1 s2 Hsym. rewrite !score_sum_positions. unfold sum_positions.
  rewrite (Nat.min_comm (String.length s2)).
  apply sum_terms_ext. intros k _. apply position_term_swap. exact Hsym.
Qed.

Lemma score_swap_witness :
  score ScoringScheme_default "G-ATTACA" "GCA-TGCU"
  = score ScoringScheme_default "GCA-TGCU" "G-ATTACA".
Proof.
  apply (score_swap ScoringScheme_default "G-ATTACA" "GCA-TGCU").
  apply no_matrix_symmetric. reflexivity.
Defined.

(** * Further properties of the engine *)

Lemma for_each_unchanged {X St : Type} (body : X → St → result St) xs :
  (∀ x s, x ∈ xs → body x s = Ok s) → ∀ s, for_each xs body s = Ok s.
Proof.
  induction xs as [|x xs IH]; intros Hbody s; [reflexivity |].
  cbn. rewrite Hbody by left. unfold mbind, result_bind.
  apply IH. intros y t Hy. apply Hbody. right. exact Hy.
Qed.

Lemma backtrace_nil self sequence1 sequence2 g A rounds alignments :
  backtrace self sequence1 sequence2 g A rounds [] alignments
  = Ok ([], alignments).
Proof. destruct rounds; reflexivity. Qed.

Lemma append_empty_r (s : string) : s +:+ "" = s.
Proof.
  induction s as [|c s IH]; [reflexivity |].
  change (String c (s +:+ "") = String c s). f_equal. exact IH.
Qed.

(** The matrix when one of the sequences is empty: the loops assign no
    cell. *)
Lemma build_matrix_empty self sequence g :
  build_matrix self "" sequence g
  = Ok (init_matrix g 1 (String.length sequence + 1))
  ∧ build_matrix self sequence "" g
    = Ok (init_matrix g (String.length sequence + 1) 1).
Proof.
  unfold build_matrix, fill_matrix. split; [reflexivity |].
  apply for_each_unchanged. intros i A _. reflexivity.
Qed.

(** An empty sequence: the engine returns the cumulated gap cost of the
    other sequence and one alignment.  That alignment holds the gap
    markers alone, the symbols of the other sequence are not in it: on
    [("", s)] it is [("", "-" * len(s))], on [(s, "")] with [s] not empty
    it is [("-" * len(s), "")]. *)
Theorem needleman_wunsch_empty_sequence :
  ∀ (self : ScoringScheme) (g : Z) (s : string),
    gap_extend_penalty self = Some g →
    needleman_wunsch "" s self
    = Ok (g * Z.of_nat (String.length s), [("", gaps (String.length s))])
    ∧ (s ≠ "" →
       needleman_wunsch s "" self
       = Ok (g * Z.of_nat (String.length s), [(gaps (String.length s), "")])).
Proof.
  intros self g s Hg.
  destruct (build_matrix_empty self s g) as [Hleft Hright].
  split.
  - unfold needleman_wunsch. rewrite Hg, Hleft.
    unfold mbind at 1, result_bind at 1.
    change (String.length "" + 1 - 1)%nat with 0%nat.
    replace (String.length s + 1 - 1)%nat with (String.length s) by lia.
    destruct (init_matrix_border g 1 (String.length s + 1)) as [Hrow0 _];
      [lia | lia |].
    rewrite Hrow0 by lia. unfold mbind at 1, result_bind at 1.
    unfold backtrace_rounds. cbn [backtrace for_each backtrace_partial].
    destruct (decide (0 = 0)%nat) as [_ | Hne]; [| congruence].
    unfold mbind, result_bind. cbn [fst snd app].
    rewrite backtrace_nil, append_empty_r. reflexivity.
  - intros Hs.
    assert (Hm : String.length s ≠ 0%nat) by (destruct s; [congruence | cbn; lia]).
    unfold needleman_wunsch. rewrite Hg, Hright.
    unfold mbind at 1, result_bind at 1.
    change (String.length "" + 1 - 1)%nat with 0%nat.
    replace (String.length s + 1 - 1)%nat with (String.length s) by lia.
    destruct (init_matrix_border g (String.length s + 1) 1) as [_ Hcol0];
      [lia | lia |].
    rewrite Hcol0 by lia. unfold mbind at 1, result_bind at 1.
    unfold backtrace_rounds. cbn [backtrace for_each backtrace_partial].
    destruct (decide (String.length s = 0)%nat) as [H0 | _]; [congruence |].
    destruct (decide (0 = 0)%nat) as [_ | Hne]; [| congruence].
    unfold mbind, result_bind. cbn [fst snd app].
    rewrite backtrace_nil, append_empty_r. reflexivity.
Qed.

Lemma needleman_wunsch_empty_sequence_witness :
  needleman_wunsch "" "ACGT" textbook_scheme = Ok (-4, [("", "----")])
  ∧ needleman_wunsch "ACGT" "" textbook_scheme = Ok (-4, [("----", "")]).
Proof.
  destruct (needleman_wunsch_empty_sequence textbook_scheme (-1) "ACGT" eq_refl)
    as [H1 H2].
  split; [exact H1 | apply H2; discriminate].
Defined.

Lemma max3_cases (a b c : Z) :
  max3 a b c = a ∨ max3 a b c = b ∨ max3 a b c = c.
Proof. unfold max3. lia. Qed.

Section BacktraceProgress.

Variable self : ScoringScheme.
Variables sequence1 sequence2 : string.
Variable g : Z.
Variable A : matrix.
Hypothesis A_filled : filled self sequence1 sequence2 g A.

(** Every partial alignment yields a final alignment or at least one move:
    an interior cell is the maximum of the three terms, so it equals one of
    them. *)
Lemma backtrace_partial_progress p next alignments :
  in_range sequence1 sequence2 p →
  ∃ next' alignments',
    backtrace_partial self sequence1 sequence2 g A p (next, alignments)
    = Ok (next', alignments')
    ∧ (length next ≤ length next')%nat
    ∧ (length alignments ≤ length alignments')%nat
    ∧ (length next + length alignments
       < length next' + length alignments')%nat.
Proof.
  destruct p as [[[alignment1 alignment2] i] j]. intros [Hi Hj].
  unfold backtrace_partial.
  destruct (decide (i = 0%nat)) as [-> | Hi0].
  { eexists _, _. split; [reflexivity |]. rewrite length_app. cbn. lia. }
  destruct (decide (j = 0%nat)) as [-> | Hj0].
  { eexists _, _. split; [reflexivity |]. rewrite length_app. cbn. lia. }
  destruct A_filled as (Hshape & _ & Hcells).
  destruct (Hcells i j) as (c1 & c2 & p & d & u & l & G1 & G2 & Hp & Hd & Hu & Hl & Ha);
    [lia | lia |].
  rewrite Ha, Hd. unfold str_index. rewrite G1, G2.
  unfold mbind, result_bind. rewrite Hp, Hu, Hl.
  pose proof (max3_cases (d + p) (u + g) (l + g)) as Hcase.
  set (a := max3 (d + p) (u + g) (l + g)) in *.
  eexists _, _. split; [reflexivity |].
  destruct (a =? d + p)%Z eqn:E1, (a =? u + g)%Z eqn:E2,
           (a =? l + g)%Z eqn:E3;
    rewrite ?length_app; cbn [length]; lia.
Qed.

Lemma backtrace_round_progress partials :
  ∀ next alignments,
    Forall (in_range sequence1 sequence2) partials →
    ∃ next' alignments',
      for_each partials (backtrace_partial self sequence1 sequence2 g A)
               (next, alignments)
      = Ok (next', alignments')
      ∧ (length next ≤ length next')%nat
      ∧ (length alignments ≤ length alignments')%nat
      ∧ (partials ≠ [] →
         length next + length alignments
         < length next' + length alignments')%nat.
Proof.
  induction partials as [|p partials IH]; intros next alignments Hrange.
  - exists next, alignments. repeat split; [lia | lia | congruence].
  - apply Forall_cons in Hrange as [Hp Hrange].
    destruct (backtrace_partial_progress p next alignments Hp)
      as (next1 & als1 & Hrun1 & Hn1 & Ha1 & Hlt1).
    destruct (IH next1 als1 Hrange) as (next2 & als2 & Hrun2 & Hn2 & Ha2 & _).
    exists next2, als2. cbn [for_each]. rewrite Hrun1.
    unfold mbind, result_bind. rewrite Hrun2.
    repeat split; [lia | lia |]. intros _. lia.
Qed.

(** The [while] loop never ends with nothing: while partial alignments are
    left or an alignment has been appended, the same holds one iteration
    later. *)
Lemma backtrace_keeps_something :
  ∀ rounds partials alignments st,
    Forall (in_range sequence1 sequence2) partials →
    partials ≠ [] ∨ alignments ≠ [] →
    backtrace self sequence1 sequence2 g A rounds partials alignments = Ok st →
    st.1 ≠ [] ∨ st.2 ≠ [].
Proof.
  induction rounds as [|rounds IH]; intros partials alignments st Hrange Hsome Hrun.
  - cbn in Hrun. injection Hrun as <-. exact Hsome.
  - cbn [backtrace] in Hrun. destruct partials as [|p partials].
    + injection Hrun as <-. right. destruct Hsome; [congruence | assumption].
    + destruct (backtrace_round self sequence1 sequence2 g A A_filled
                  (p :: partials) [] alignments Hrange)
        as (moves & finals & Hround & Hmoves & _).
      destruct (backtrace_round_progress (p :: partials) [] alignments Hrange)
        as (next' & als' & Hround' & _ & _ & Hlt).
      rewrite Hround in Hround'. injection Hround' as <- <-.
      rewrite Hround in Hrun. unfold mbind, result_bind in Hrun.
      cbn [fst snd app] in Hrun.
      apply (IH moves (alignments ++ finals) st); [| | exact Hrun].
      * apply Forall_forall. intros q Hq.
        rewrite Forall_forall in Hmoves, Hrange.
        destruct (Hmoves q Hq) as (p' & Hin & Hpq).
        eapply step_in_range; eauto.
      * specialize (Hlt ltac:(congruence)). cbn [app length] in Hlt.
        destruct moves as [|q moves]; [right | left; congruence].
        destruct (alignments ++ finals); [cbn in Hlt; lia | congruence].
Qed.

End BacktraceProgress.

(** Whenever the engine returns, on a policy of finite scores (the scores
    of this embedding: no infinity, no NaN), it returns at least one
    alignment: the maximum of three finite terms is one of them, so every
    interior cell passes one of the tests of lines 46, 48 and 50. *)
Theorem needleman_wunsch_some_alignment :
  ∀ (self : ScoringScheme) (sequence1 sequence2 : string)
    (max_score : Z) (alignments : list alignment),
    needleman_wunsch sequence1 sequence2 self = Ok (max_score, alignments) →
    alignments ≠ [].
Proof.
  intros self sequence1 sequence2 max_score alignments Hnw.
  destruct (gap_extend_penalty self) as [g|] eqn:Hg;
    [| unfold needleman_wunsch in Hnw; rewrite Hg in Hnw; discriminate].
  assert (Hbuild : ∃ A, build_matrix self sequence1 sequence2 g = Ok A).
  { unfold needleman_wunsch in Hnw. rewrite Hg in Hnw.
    destruct (build_matrix self sequence1 sequence2 g);
      [eauto | discriminate]. }
  destruct Hbuild as [A Hbuild].
  destruct (needleman_wunsch_returns self sequence1 sequence2 g A Hg Hbuild)
    as (v & st & _ & Hrun & Hexit & Hnw').
  rewrite Hnw in Hnw'. injection Hnw' as -> ->.
  pose proof (fill_matrix_filled _ _ _ _ _ Hbuild) as Hfilled.
  assert (Hsome : st.1 ≠ [] ∨ st.2 ≠ []).
  { apply (backtrace_keeps_something self sequence1 sequence2 g A Hfilled
             _ _ _ st) with (3 := Hrun); [| left; discriminate].
    constructor; [cbn; lia | constructor]. }
  destruct Hsome as [H | H]; [congruence | exact H].
Qed.

Lemma needleman_wunsch_some_alignment_witness :
  [("ABC", "A-C")] ≠ ([] : list alignment).
Proof.
  apply (needleman_wunsch_some_alignment textbook_scheme "ABC" "AC" 1).
  vm_compute. reflexivity.
Defined.

(** ** The returned alignments with sides of equal length *)

Lemma get_None_length (s : string) (k : nat) :
  String.get k s = None → (String.length s ≤ k)%nat.
Proof.
  intros Hget. destruct (decide (k < String.length s)%nat) as [Hlt |]; [| lia].
  destruct (get_Some s k Hlt) as [c Hc]. congruence.
Qed.

Lemma get_None_length_conv (s : string) (k : nat) :
  String.get (String.length s + k) s = None.
Proof.
  destruct (String.get (String.length s + k) s) as [c|] eqn:E; [| reflexivity].
  apply get_lt in E. lia.
Qed.

(** Putting the symbol [s[i - 1]] in front of what reads as [s] from
    position [i] gives what reads as [s] from position [i - 1]. *)
Lemma reads_from_cons (s r : string) (i : nat) (c : ascii) :
  (1 ≤ i)%nat → String.get (i - 1) s = Some c →
  (∀ k, String.get k r = String.get (i + k) s) →
  ∀ k, String.get k (String c r) = String.get (i - 1 + k) s.
Proof.
  intros Hi Hc Hr [|k]; cbn [String.get].
  - rewrite Nat.add_0_r. symmetry. exact Hc.
  - rewrite Hr. f_equal. lia.
Qed.

Lemma remove_gaps_cons (c : ascii) (s : string) :
  remove_gaps (String c s)
  = if is_gap c then remove_gaps s else String c (remove_gaps s).
Proof. reflexivity. Qed.

(** For sequences that hold no gap marker, a returned alignment whose two
    sides have the same length is an alignment of the two sequences:
    deleting its gap markers gives the sequences back, and no column holds
    two gap markers. *)
Theorem needleman_wunsch_equal_sides_valid :
  ∀ (self : ScoringScheme) (sequence1 sequence2 : string)
    (max_score : Z) (alignments : list alignment) (a1 a2 : string),
    gap_free sequence1 = true → gap_free sequence2 = true →
    needleman_wunsch sequence1 sequence2 self = Ok (max_score, alignments) →
    (a1, a2) ∈ alignments →
    String.length a1 = String.length a2 →
    remove_gaps a1 = sequence1 ∧ remove_gaps a2 = sequence2
    ∧ no_double_gap a1 a2 = true.
Proof.
  intros self sequence1 sequence2 max_score alignments a1 a2
         Hfree1 Hfree2 Hnw Hin Hlen.
  destruct (gap_extend_penalty self) as [g|] eqn:Hg;
    [| unfold needleman_wunsch in Hnw; rewrite Hg in Hnw; discriminate].
  assert (Hbuild : ∃ A, build_matrix self sequence1 sequence2 g = Ok A).
  { unfold needleman_wunsch in Hnw. rewrite Hg in Hnw.
    destruct (build_matrix self sequence1 sequence2 g);
      [eauto | discriminate]. }
  destruct Hbuild as [A Hbuild].
  destruct (needleman_wunsch_returns self sequence1 sequence2 g A Hg Hbuild)
    as (v & st & _ & Hrun & _ & Hnw').
  rewrite Hnw in Hnw'. injection Hnw' as -> ->.
  pose proof (fill_matrix_filled _ _ _ _ _ Hbuild) as Hfilled.
  set (Good := λ p : partial,
         let '(al1, al2, i, j) := p in
         in_range sequence1 sequence2 p
         ∧ String.length al1 = String.length al2
         ∧ (∀ k, String.get k (remove_gaps al1) = String.get (i + k) sequence1)
         ∧ (∀ k, String.get k (remove_gaps al2) = String.get (j + k) sequence2)
         ∧ no_double_gap al1 al2 = true).
  set (GoodAl := λ a : alignment,
         String.length a.1 = String.length a.2 →
         remove_gaps a.1 = sequence1 ∧ remove_gaps a.2 = sequence2
         ∧ no_double_gap a.1 a.2 = true).
  destruct (backtrace_inv self sequence1 sequence2 g A Hfilled Good GoodAl) with
    (rounds := backtrace_rounds sequence1 sequence2)
    (partials := [("", "", String.length sequence1, String.length sequence2)])
    (alignments := @nil alignment)
    as (st' & Hrun' & _ & Hgood).
  - intros [[[al1 al2] i] j] (Hr & _). exact Hr.
  - intros p q HGp Hstep.
    destruct Hstep as
      [al1 al2 i j c1 c2 a d p' Hi Hj G1 G2 Ha Hd Hp E
      |al1 al2 i j c1 a u Hi Hj G1 Ha Hu E
      |al1 al2 i j c2 a l Hi Hj G2 Ha Hl E];
      destruct HGp as ([Hri Hrj] & Hl12 & Hr1 & Hr2 & Hdg).
    + pose proof (gap_free_get _ _ _ Hfree1 G1) as Hc1.
      pose proof (gap_free_get _ _ _ Hfree2 G2) as Hc2.
      split; [cbn; lia |]. split; [cbn; congruence |].
      rewrite !remove_gaps_cons, Hc1, Hc2. cbn [no_double_gap].
      rewrite Hc1, Hdg.
      split; [apply reads_from_cons; [lia | assumption..] |].
      split; [apply reads_from_cons; [lia | assumption..] | reflexivity].
    + pose proof (gap_free_get _ _ _ Hfree1 G1) as Hc1.
      split; [cbn; lia |]. split; [cbn; congruence |].
      rewrite !remove_gaps_cons, Hc1. cbn [no_double_gap].
      rewrite Hc1, Hdg.
      split; [apply reads_from_cons; [lia | assumption..] |].
      split; [exact Hr2 | reflexivity].
    + pose proof (gap_free_get _ _ _ Hfree2 G2) as Hc2.
      split; [cbn; lia |]. split; [cbn; congruence |].
      rewrite !remove_gaps_cons, Hc2. cbn [no_double_gap].
      rewrite Hc2, Hdg.
      split; [exact Hr1 |].
      split; [apply reads_from_cons; [lia | assumption..] |].
      rewrite andb_false_r. reflexivity.
  - intros [[[al1 al2] i] j] a
           ([Hri Hrj] & Hl12 & Hr1 & Hr2 & Hdg) Hfinal.
    destruct Hfinal as [[-> ->] | (Hi & -> & ->)]; intros Hlen'; cbn in Hlen'.
    + rewrite length_gaps_append in Hlen'.
      assert (j = 0)%nat as -> by lia.
      change (remove_gaps al1 = sequence1 ∧ remove_gaps al2 = sequence2
              ∧ no_double_gap al1 al2 = true).
      split; [apply get_correct; exact Hr1 |].
      split; [apply get_correct; exact Hr2 | exact Hdg].
    + rewrite length_gaps_append in Hlen'. lia.
  - constructor; [| constructor].
    split; [cbn; lia |]. split; [reflexivity |].
    split; [| split; [| reflexivity]]; intros k; cbn [remove_gaps String.get];
      symmetry; apply get_None_length_conv.
  - constructor.
  - rewrite Hrun in Hrun'. injection Hrun' as <-.
    rewrite Forall_forall in Hgood.
    apply (Hgood (a1, a2) Hin). exact Hlen.
Qed.

Lemma needleman_wunsch_equal_sides_valid_witness :
  remove_gaps "ABC" = "ABC" ∧ remove_gaps "A-C" = "AC"
  ∧ no_double_gap "ABC" "A-C" = true.
Proof.
  apply (needleman_wunsch_equal_sides_valid textbook_scheme "ABC" "AC" 1
           [("ABC", "A-C")] "ABC" "A-C");
    try reflexivity.
  apply list_elem_of_here.
Defined.

(** ** The returned score is an upper bound *)

Section Optimal.

Variable self : ScoringScheme.
Variables sequence1 sequence2 : string.
Variable A : matrix.
Hypothesis A_filled :
  filled self sequence1 sequence2 (gap_penalty self) A.

Local Abbreviation m := (String.length sequence1).
Local Abbreviation n := (String.length sequence2).
Local Abbreviation g := (gap_penalty self).

(** Moving right along a row costs at most one gap. *)
Lemma cell_right (i j : nat) (a a' : Z) :
  (i ≤ m)%nat → (j < n)%nat →
  np_get A i j = Ok a → np_get A i (S j) = Ok a' → (a + g ≤ a')%Z.
Proof.
  intros Hi Hj Ha Ha'.
  destruct A_filled as (_ & [Hrow0 _] & Hcells).
  destruct i as [|i].
  - rewrite Hrow0 in Ha, Ha' by lia.
    injection Ha as <-. injection Ha' as <-. lia.
  - destruct (Hcells (S i) (S j))
      as (c1 & c2 & p & d & u & l & _ & _ & _ & _ & _ & Hl & Hv); [lia | lia |].
    replace (S j - 1)%nat with j in Hl by lia.
    rewrite Ha in Hl. injection Hl as <-.
    rewrite Ha' in Hv. injection Hv as ->. unfold max3. lia.
Qed.

(** Moving down along a column costs at most one gap. *)
Lemma cell_down (i j : nat) (a a' : Z) :
  (i < m)%nat → (j ≤ n)%nat →
  np_get A i j = Ok a → np_get A (S i) j = Ok a' → (a + g ≤ a')%Z.
Proof.
  intros Hi Hj Ha Ha'.
  destruct A_filled as (_ & [_ Hcol0] & Hcells).
  destruct j as [|j].
  - rewrite Hcol0 in Ha, Ha' by lia.
    injection Ha as <-. injection Ha' as <-. lia.
  - destruct (Hcells (S i) (S j))
      as (c1 & c2 & p & d & u & l & _ & _ & _ & _ & Hu & _ & Hv); [lia | lia |].
    replace (S i - 1)%nat with i in Hu by lia.
    rewrite Ha in Hu. injection Hu as <-.
    rewrite Ha' in Hv. injection Hv as ->. unfold max3. lia.
Qed.

(** Moving along the diagonal gains at most the score of the two
    symbols. *)
Lemma cell_diagonal (i j : nat) (c1 c2 : ascii) (a a' p : Z) :
  String.get i sequence1 = Some c1 → String.get j sequence2 = Some c2 →
  call self (str1 c1) (str1 c2) = Ok p →
  np_get A i j = Ok a → np_get A (S i) (S j) = Ok a' → (a + p ≤ a')%Z.
Proof.
  intros G1 G2 Hp Ha Ha'.
  destruct A_filled as (_ & _ & Hcells).
  destruct (Hcells (S i) (S j))
    as (c1' & c2' & p' & d & u & l & G1' & G2' & Hp' & Hd & _ & _ & Hv).
  { apply get_lt in G1. lia. }
  { apply get_lt in G2. lia. }
  replace (S i - 1)%nat with i in * by lia.
  replace (S j - 1)%nat with j in * by lia.
  rewrite G1 in G1'. injection G1' as <-.
  rewrite G2 in G2'. injection G2' as <-.
  rewrite Hp in Hp'. injection Hp' as <-.
  rewrite Ha in Hd. injection Hd as <-.
  rewrite Ha' in Hv. injection Hv as ->. unfold max3. lia.
Qed.

(** Two aligned sequences of the same length that read, without their gap
    markers, as the sequences from the positions [i] and [j] score at most
    what separates [A[i, j]] from the last cell. *)
Lemma column_scores_bounded (v : Z) :
  np_get A m n = Ok v →
  ∀ a1 a2 i j t a,
    (i ≤ m)%nat → (j ≤ n)%nat →
    String.length a1 = String.length a2 →
    (∀ k, String.get k (remove_gaps a1) = String.get (i + k) sequence1) →
    (∀ k, String.get k (remove_gaps a2) = String.get (j + k) sequence2) →
    column_scores self a1 a2 = Ok t →
    np_get A i j = Ok a →
    (a + t ≤ v)%Z.
Proof.
  intros Hv. pose proof A_filled as (Hshape & _ & _).
  induction a1 as [|c1 a1 IH]; intros a2 i j t a Hi Hj Hlen Hr1 Hr2 Ht Ha.
  - destruct a2 as [|c2 a2]; [| discriminate].
    cbn in Ht. injection Ht as <-.
    specialize (Hr1 0%nat). specialize (Hr2 0%nat).
    cbn in Hr1, Hr2. rewrite Nat.add_0_r in Hr1, Hr2.
    symmetry in Hr1, Hr2. apply get_None_length in Hr1, Hr2.
    assert (i = m) as -> by lia. assert (j = n) as -> by lia.
    rewrite Hv in Ha. injection Ha as <-. lia.
  - destruct a2 as [|c2 a2]; [discriminate |].
    cbn in Hlen. injection Hlen as Hlen.
    cbn [column_scores] in Ht.
    apply bind_Ok in Ht as (p & Hp & Ht).
    apply bind_Ok in Ht as (t' & Ht' & Ht). injection Ht as <-.
    rewrite remove_gaps_cons in Hr1, Hr2.
    pose proof Hp as Hp'. rewrite call_symbols in Hp'.
    destruct (is_gap c1) eqn:E1, (is_gap c2) eqn:E2; cbn [andb orb] in Hp'.
    + discriminate.
    + injection Hp' as <-.
      pose proof (Hr2 0%nat) as G2. cbn in G2. rewrite Nat.add_0_r in G2.
      symmetry in G2. pose proof (get_lt _ _ _ G2) as Hj'.
      destruct (np_get_in_range A _ _ i (S j) Hshape) as [a' Ha']; [lia.. |].
      pose proof (cell_right i j a a' Hi Hj' Ha Ha') as Hstep.
      assert (a' + t' ≤ v)%Z; [| lia].
      apply (IH a2 i (S j) t' a'); try assumption; try lia.
      intros k. specialize (Hr2 (S k)). cbn [String.get] in Hr2.
      rewrite Hr2. f_equal. lia.
    + injection Hp' as <-.
      pose proof (Hr1 0%nat) as G1. cbn in G1. rewrite Nat.add_0_r in G1.
      symmetry in G1. pose proof (get_lt _ _ _ G1) as Hi'.
      destruct (np_get_in_range A _ _ (S i) j Hshape) as [a' Ha']; [lia.. |].
      pose proof (cell_down i j a a' Hi' Hj Ha Ha') as Hstep.
      assert (a' + t' ≤ v)%Z; [| lia].
      apply (IH a2 (S i) j t' a'); try assumption; try lia.
      intros k. specialize (Hr1 (S k)). cbn [String.get] in Hr1.
      rewrite Hr1. f_equal. lia.
    + pose proof (Hr1 0%nat) as G1. cbn in G1. rewrite Nat.add_0_r in G1.
      symmetry in G1. pose proof (get_lt _ _ _ G1) as Hi'.
      pose proof (Hr2 0%nat) as G2. cbn in G2. rewrite Nat.add_0_r in G2.
      symmetry in G2. pose proof (get_lt _ _ _ G2) as Hj'.
      destruct (np_get_in_range A _ _ (S i) (S j) Hshape) as [a' Ha'];
        [lia.. |].
      pose proof (cell_diagonal i j c1 c2 a a' p G1 G2 Hp Ha Ha') as Hstep.
      assert (a' + t' ≤ v)%Z; [| lia].
      apply (IH a2 (S i) (S j) t' a'); try assumption; try lia.
      * intros k. specialize (Hr1 (S k)). cbn [String.get] in Hr1.
        rewrite Hr1. f_equal. lia.
      * intros k. specialize (Hr2 (S k)). cbn [String.get] in Hr2.
        rewrite Hr2. f_equal. lia.
Qed.

End Optimal.

(** The returned score is optimal from above, where the arithmetic of the
    code is exact: the scores are integers of absolute value at most [B]
    with [(len(sequence1) + len(sequence2)) * B <= 2^53], so that every
    sum and product that the engine and the scorer compute is an integer
    that float64 holds.  For such a policy whose gap-start penalty is 0 and
    whose [gap_penalty] is the gap penalty that the engine reads, no
    alignment of the two sequences (two sides of the same length that give
    the sequences back when their gap markers are deleted) is scored by
    [score] above the score the engine returns. *)
Theorem needleman_wunsch_score_upper_bound :
  ∀ (self : ScoringScheme) (sequence1 sequence2 : string) (B : Z)
    (max_score : Z) (alignments : list alignment) (a1 a2 : string) (t : Z),
    scores_within self B →
    (Z.of_nat (String.length sequence1 + String.length sequence2) * B
     ≤ 2 ^ 53)%Z →
    gap_start_penalty self = 0 →
    gap_extend_penalty self = Some (gap_penalty self) →
    needleman_wunsch sequence1 sequence2 self = Ok (max_score, alignments) →
    remove_gaps a1 = sequence1 → remove_gaps a2 = sequence2 →
    String.length a1 = String.length a2 →
    score self a1 a2 = Ok t →
    (t ≤ max_score)%Z.
Proof.
  intros self sequence1 sequence2 B max_score alignments a1 a2 t
         _ _ Hgs Hg Hnw Hr1 Hr2 Hlen Ht.
  assert (Hbuild : ∃ A, build_matrix self sequence1 sequence2
                                     (gap_penalty self) = Ok A).
  { unfold needleman_wunsch in Hnw. rewrite Hg in Hnw.
    destruct (build_matrix self sequence1 sequence2 (gap_penalty self));
      [eauto | discriminate]. }
  destruct Hbuild as [A Hbuild].
  destruct (needleman_wunsch_returns self sequence1 sequence2 _ A Hg Hbuild)
    as (v & st & Hv & _ & _ & Hnw').
  rewrite Hnw in Hnw'. injection Hnw' as -> ->.
  pose proof (fill_matrix_filled _ _ _ _ _ Hbuild) as Hfilled.
  pose proof Hfilled as (_ & [Hrow0 _] & _).
  rewrite score_column_scores in Ht by exact Hgs.
  assert (H0 : np_get A 0 0 = Ok 0).
  { rewrite Hrow0 by lia. f_equal. lia. }
  pose proof (column_scores_bounded self sequence1 sequence2 A Hfilled v Hv
                a1 a2 0%nat 0%nat t 0) as Hbound.
  assert (0 + t ≤ v)%Z; [| lia].
  apply Hbound; try assumption; try lia.
  - intros k. rewrite Hr1. reflexivity.
  - intros k. rewrite Hr2. reflexivity.
Qed.

(** The alignment of ["ABC"] and ["AC"] that puts the gap first scores -1,
    below the score 1 that the engine returns; the scores of the textbook
    policy are within 1. *)
Lemma needleman_wunsch_score_upper_bound_witness : (-1 ≤ 1)%Z.
Proof.
  apply (needleman_wunsch_score_upper_bound textbook_scheme "ABC" "AC" 1 1
           [("ABC", "A-C")] "ABC" "-AC" (-1));
    try reflexivity.
  - repeat split; try (cbn; lia). intros M row v HM. discriminate HM.
  - cbn. lia.
Defined.

(** ** Swapping the two sequences *)

Lemma call_swap self a b :
  symmetric_scheme self →
  call self (str1 a) (str1 b) = call self (str1 b) (str1 a).
Proof.
  intros Hsym. rewrite !call_symbols, (Hsym a b).
  destruct (is_gap a), (is_gap b); reflexivity.
Qed.

Lemma filled_scorable self sequence1 sequence2 g A :
  filled self sequence1 sequence2 g A → scorable self sequence1 sequence2.
Proof.
  intros (_ & _ & Hcells) i j c1 c2 G1 G2.
  destruct (Hcells (S i) (S j))
    as (c1' & c2' & p & _ & _ & _ & G1' & G2' & Hp & _).
  { apply get_lt in G1. lia. }
  { apply get_lt in G2. lia. }
  replace (S i - 1)%nat with i in G1' by lia.
  replace (S j - 1)%nat with j in G2' by lia.
  exists p. congruence.
Qed.

(** The matrix of the swapped sequences is the transposed matrix. *)
Lemma filled_transpose self sequence1 sequence2 g A B :
  symmetric_scheme self →
  filled self sequence1 sequence2 g A →
  filled self sequence2 sequence1 g B →
  ∀ s i j, (i + j ≤ s)%nat →
           (i ≤ String.length sequence1)%nat →
           (j ≤ String.length sequence2)%nat →
           np_get B j i = np_get A i j.
Proof.
  intros Hsym (_ & [HArow HAcol] & HA) (_ & [HBrow HBcol] & HB).
  induction s as [|s IH]; intros i j Hs Hi Hj.
  - assert (i = 0)%nat as -> by lia. assert (j = 0)%nat as -> by lia.
    rewrite HArow, HBrow by lia. reflexivity.
  - destruct i as [|i]; [rewrite HArow, HBcol by lia; reflexivity |].
    destruct j as [|j]; [rewrite HAcol, HBrow by lia; reflexivity |].
    destruct (HA (S i) (S j))
      as (c1 & c2 & p & d & u & l & G1 & G2 & Hp & Hd & Hu & Hl & Hv);
      [lia | lia |].
    destruct (HB (S j) (S i))
      as (c2' & c1' & p' & d' & u' & l' & G2' & G1' & Hp' & Hd' & Hu' & Hl' & Hv');
      [lia | lia |].
    replace (S i - 1)%nat with i in * by lia.
    replace (S j - 1)%nat with j in * by lia.
    rewrite G1 in G1'. injection G1' as <-.
    rewrite G2 in G2'. injection G2' as <-.
    rewrite (call_swap self c2 c1 Hsym), Hp in Hp'. injection Hp' as <-.
    rewrite (IH i j) in Hd' by lia. rewrite Hd in Hd'. injection Hd' as <-.
    rewrite (IH (S i) j) in Hu' by lia. rewrite Hl in Hu'. injection Hu' as <-.
    rewrite (IH i (S j)) in Hl' by lia. rewrite Hu in Hl'. injection Hl' as <-.
    rewrite Hv, Hv'. f_equal. unfold max3. lia.
Qed.

(** With a policy that scores a pair of symbols and the swapped pair
    alike, the engine returns the same score when its two sequences are
    swapped. *)
Theorem needleman_wunsch_swap_score :
  ∀ (self : ScoringScheme) (sequence1 sequence2 : string)
    (max_score : Z) (alignments : list alignment),
    symmetric_scheme self →
    needleman_wunsch sequence1 sequence2 self = Ok (max_score, alignments) →
    ∃ alignments',
      needleman_wunsch sequence2 sequence1 self = Ok (max_score, alignments').
Proof.
  intros self sequence1 sequence2 max_score alignments Hsym Hnw.
  destruct (gap_extend_penalty self) as [g|] eqn:Hg;
    [| unfold needleman_wunsch in Hnw; rewrite Hg in Hnw; discriminate].
  assert (Hbuild : ∃ A, build_matrix self sequence1 sequence2 g = Ok A).
  { unfold needleman_wunsch in Hnw. rewrite Hg in Hnw.
    destruct (build_matrix self sequence1 sequence2 g);
      [eauto | discriminate]. }
  destruct Hbuild as [A Hbuild].
  destruct (needleman_wunsch_returns self sequence1 sequence2 g A Hg Hbuild)
    as (v & st & Hv & _ & _ & Hnw').
  rewrite Hnw in Hnw'. injection Hnw' as -> ->.
  pose proof (fill_matrix_filled _ _ _ _ _ Hbuild) as HA.
  destruct (build_matrix_total self sequence2 sequence1 g) as [B HbuildB].
  { intros j i c2 c1 G2 G1.
    destruct (filled_scorable _ _ _ _ _ HA i j c1 c2 G1 G2) as [p Hp].
    exists p. rewrite (call_swap self c2 c1 Hsym). exact Hp. }
  pose proof (fill_matrix_filled _ _ _ _ _ HbuildB) as HB.
  destruct (needleman_wunsch_returns self sequence2 sequence1 g B Hg HbuildB)
    as (v' & st' & Hv' & _ & _ & HnwB).
  exists st'.2. rewrite HnwB. do 2 f_equal.
  rewrite (filled_transpose self sequence1 sequence2 g A B Hsym HA HB
             (String.length sequence1 + String.length sequence2)) in Hv'
    by lia.
  congruence.
Qed.

Lemma needleman_wunsch_swap_score_witness :
  ∃ alignments',
    needleman_wunsch "GCATGCU" "GATTACA" textbook_scheme
    = Ok (0, alignments').
Proof.
  apply (needleman_wunsch_swap_score textbook_scheme "GATTACA" "GCATGCU" 0
           [("G-ATTACA", "GCA-TGCU"); ("G-ATTACA", "GCAT-GCU");
            ("G-ATTACA", "GCATG-CU")]).
  - apply no_matrix_symmetric. reflexivity.
  - vm_compute. reflexivity.
Defined.

(** * Further properties of the substitution-matrix loader *)

(** ** The index of the header symbols *)

(** The header gives every symbol the index of its last occurrence; a
    symbol that the header does not list has no index.  When no symbol is
    repeated the index of a symbol is its position, and there are as many
    indices as symbols. *)
Theorem index_symbols_positions :
  ∀ (tokens : list string) (s : string),
    (s ∉ tokens → index_symbols tokens !! s = None)
    ∧ (∀ i, tokens !! i = Some s →
            (∀ i', (i < i')%nat → tokens !! i' ≠ Some s) →
            index_symbols tokens !! s = Some i)
    ∧ (NoDup tokens →
       (∀ i, index_symbols tokens !! s = Some i ↔ tokens !! i = Some s)
       ∧ size (index_symbols tokens) = length tokens).
Proof.
  intros tokens s. split; [| split].
  - intros Hs. unfold index_symbols, enumerate.
    rewrite index_from_absent by exact Hs. apply lookup_empty.
  - intros i Hi Hlast. unfold index_symbols, enumerate.
    rewrite (index_from_last s tokens 0 i) by assumption. reflexivity.
  - intros Hnd. split.
    + intros i. apply index_symbols_NoDup. exact Hnd.
    + apply index_symbols_size. exact Hnd.
Qed.

(** ** Loading, then looking up *)

Section LoadCellsStored.

Variable float : string → result Z.
Variable i : nat.

Local Abbreviation cell := (λ (js : nat * string) (M : matrix),
                             v ← float js.2; np_set M i js.1 v).

(** The loop over the entries of a data line stores the value of entry
    [j] in the cell [(i, k + j)] and leaves the other rows, and the
    columns before [k], as they were. *)
Lemma load_cells_stored (row : list string) :
  ∀ (k : nat) (M M' : matrix),
    for_each (zip (seq k (length row)) row) cell M = Ok M' →
    (∀ j tok v, row !! j = Some tok → float tok = Ok v →
                np_get M' i (k + j) = Ok v)
    ∧ (∀ i' j', i' ≠ i ∨ (j' < k)%nat → np_get M' i' j' = np_get M i' j').
Proof.
  induction row as [|tok0 row IH]; intros k M M' Hrun.
  - cbn in Hrun. injection Hrun as <-. split; [discriminate | reflexivity].
  - cbn in Hrun. apply bind_Ok in Hrun as (M1 & Hcell & Hrun).
    apply bind_Ok in Hcell as (v0 & Hv0 & Hset).
    destruct (IH (S k) M1 M' Hrun) as [Hstored Hkept].
    assert (Hkept' : ∀ i' j', i' ≠ i ∨ (j' < k)%nat →
                              np_get M' i' j' = np_get M i' j').
    { intros i' j' Hij. rewrite Hkept by lia.
      apply (np_get_set_ne _ _ _ _ _ _ _ Hset).
      intros E. injection E. intros. lia. }
    split; [| exact Hkept'].
    intros [|j] tok v Htok Hv.
    + injection Htok as <-. rewrite Hv0 in Hv. injection Hv as <-.
      rewrite Nat.add_0_r, Hkept by lia.
      apply (np_get_set_eq _ _ _ _ _ Hset).
    + replace (k + S j)%nat with (S k + j)%nat by lia. eauto.
Qed.

End LoadCellsStored.

(** The data lines of the other symbols leave the row of a symbol as it
    is. *)
Lemma load_rows_keep_row float idx (i : nat) (rows : list string) :
  ∀ (M M' : matrix),
    for_each rows (load_row float idx) M = Ok M' →
    (∀ line symbol row, line ∈ rows → split line = symbol :: row →
                        idx !! symbol ≠ Some i) →
    ∀ j, np_get M' i j = np_get M i j.
Proof.
  induction rows as [|line rows IH]; intros M M' Hrun Hother j.
  - cbn in Hrun. injection Hrun as <-. reflexivity.
  - cbn in Hrun. apply bind_Ok in Hrun as (M1 & Hline & Hrun).
    rewrite (IH M1 M' Hrun).
    + unfold load_row in Hline.
      destruct (split line) as [|symbol row] eqn:Hsplit; [discriminate |].
      destruct (idx !! symbol) as [i'|] eqn:Hidx; [| discriminate].
      destruct (load_cells_stored float i' row 0 M M1 Hline) as [_ Hkept].
      apply Hkept. left. intros <-.
      apply (Hother line symbol row); [left | exact Hsplit | exact Hidx].
    + intros line' symbol row Hin. apply Hother. right. exact Hin.
Qed.

(** Loading then looking up: after a file with a header of distinct
    symbols has loaded, the pair of the leading symbol [a] of a data line
    and the symbol [b] at position [j] of the header scores the value of
    entry [j] of that line, when no later data line starts with [a]. *)
Theorem load_matrix_then_call :
  ∀ (float : string → result Z) (self self' : ScoringScheme)
    (f : list string) (headline : string) (pre post : list string)
    (line : string) (a b : ascii) (entries : list string)
    (j : nat) (tok : string) (v : Z),
    read_headline f = Ok (headline, pre ++ line :: post) →
    NoDup (split headline) →
    load_matrix float self f = Ok self' →
    split line = str1 a :: entries →
    (∀ later symbol row, later ∈ post → split later = symbol :: row →
                         symbol ≠ str1 a) →
    split headline !! j = Some (str1 b) →
    entries !! j = Some tok → float tok = Ok v →
    is_gap a = false → is_gap b = false →
    call self' (str1 a) (str1 b) = Ok v.
Proof.
  intros float self self' f headline pre post line a b entries j tok v
         Hhead Hnd Hload Hsplit Hlater Hb Htok Hv Ha Hgb.
  unfold load_matrix in Hload. rewrite Hhead in Hload.
  unfold mbind at 1, result_bind at 1 in Hload. cbn [fst snd] in Hload.
  set (idx := index_symbols (split headline)) in *.
  apply bind_Ok in Hload as (M & Hrows & Hself). injection Hself as <-.
  rewrite for_each_app in Hrows.
  apply bind_Ok in Hrows as (M1 & _ & Hrows). cbn [for_each] in Hrows.
  apply bind_Ok in Hrows as (M2 & Hline & Hpost).
  unfold load_row in Hline. rewrite Hsplit in Hline.
  destruct (idx !! str1 a) as [i|] eqn:Hidx; [| discriminate].
  destruct (load_cells_stored float i entries 0 M1 M2 Hline) as [Hstored _].
  specialize (Hstored j tok v Htok Hv). cbn in Hstored.
  assert (HM : np_get M i j = Ok v).
  { rewrite (load_rows_keep_row float idx i post M2 M Hpost); [exact Hstored |].
    intros later symbol row Hin Hs Hsym.
    apply (Hlater later symbol row Hin Hs).
    apply (index_symbols_NoDup _ _ _ Hnd) in Hsym, Hidx. congruence. }
  rewrite call_symbols, Ha, Hgb. cbn [andb orb].
  unfold symbol_score. cbn [scoring_matrix symbol_to_index set_matrix].
  rewrite Hidx.
  apply (index_symbols_NoDup _ _ _ Hnd) in Hb. fold idx in Hb. rewrite Hb.
  exact HM.
Qed.

(** The file of the specification: header [A C], rows [A 2 -1] and
    [C -1 2]; the pair [(A, C)] scores -1. *)
Lemma load_matrix_then_call_witness :
  ∃ self',
    load_matrix float_of_literal ScoringScheme_default
      ["# scores" +:+ nl; "A C" +:+ nl; "A 2 -1" +:+ nl; "C -1 2" +:+ nl]
    = Ok self'
    ∧ call self' "A" "C" = Ok (-1).
Proof.
  eexists. split; [vm_compute; reflexivity |].
  apply (load_matrix_then_call float_of_literal ScoringScheme_default _
           ["# scores" +:+ nl; "A C" +:+ nl; "A 2 -1" +:+ nl; "C -1 2" +:+ nl]
           ("A C" +:+ nl) [] ["C -1 2" +:+ nl] ("A 2 -1" +:+ nl)
           "A"%char "C"%char ["2"; "-1"] 1 "-1" (-1));
    try (vm_compute; reflexivity).
  - vm_compute. apply NoDup_cons. split; [| apply NoDup_cons; split;
      [apply not_elem_of_nil | apply NoDup_nil; exact I]].
    intros Hin. apply elem_of_cons in Hin as [H | H]; [discriminate |].
    apply elem_of_nil in H. exact H.
  - intros later symbol row Hin Hs.
    apply elem_of_cons in Hin as [-> | Hin];
      [| apply elem_of_nil in Hin; contradiction].
    vm_compute in Hs. injection Hs as <- _. discriminate.
Defined.

(** ** The symbols of a loaded matrix *)

(** The loop of [get_symbols] over items that give every index at most one
    symbol: every item ends in its place, the other places are as they
    were. *)
Lemma set_symbols_spec (n : nat) (items : list (string * nat)) :
  ∀ symbols : list string,
    length symbols = n →
    (∀ s i, (s, i) ∈ items → (i < n)%nat) →
    (∀ s s' i, (s, i) ∈ items → (s', i) ∈ items → s = s') →
    ∃ symbols',
      for_each items set_symbol symbols = Ok symbols'
      ∧ length symbols' = n
      ∧ (∀ s i, (s, i) ∈ items → symbols' !! i = Some (truncate1 s))
      ∧ (∀ i, (∀ s, (s, i) ∉ items) → symbols' !! i = symbols !! i).
Proof.
  induction items as [|[s0 i0] items IH]; intros symbols Hlen Hlt Hfun.
  - exists symbols. split; [reflexivity |]. split; [exact Hlen |].
    split; [| reflexivity]. intros s i Hin. apply elem_of_nil in Hin.
    contradiction.
  - assert (Hi0 : (i0 < n)%nat) by (apply (Hlt s0); left).
    destruct (IH (<[i0 := truncate1 s0]> symbols)) as (symbols' & Hrun & Hlen' & Hin' & Hout').
    { rewrite length_insert. exact Hlen. }
    { intros s i Hin. apply (Hlt s). right. exact Hin. }
    { intros s s' i H1 H2. apply (Hfun s s' i); right; assumption. }
    assert (Hs0 : set_symbol (s0, i0) symbols
                  = Ok (<[i0 := truncate1 s0]> symbols)).
    { unfold set_symbol. cbn [fst snd].
      destruct (decide (i0 < length symbols)%nat); [reflexivity | lia]. }
    exists symbols'. cbn [for_each]. rewrite Hs0.
    unfold mbind, result_bind. split; [exact Hrun |]. split; [exact Hlen' |].
    split.
    + intros s i Hin.
      destruct (decide ((s, i) ∈ items)) as [Hrest | Hrest]; [eauto |].
      apply elem_of_cons in Hin as [[= -> ->] | Hin]; [| contradiction].
      rewrite Hout'.
      * apply list_lookup_insert_eq. lia.
      * intros s' Hs'.
        assert (s0 = s') by (apply (Hfun s0 s' i0); [left | right; exact Hs']).
        subst s'. contradiction.
    + intros i Hnone. rewrite Hout'.
      * apply list_lookup_insert_ne. intros ->. apply (Hnone s0). left.
      * intros s Hs. apply (Hnone s). right. exact Hs.
Qed.

(** After a file with a header of distinct symbols has loaded,
    [get_symbols] returns the symbols of the header in their order, each
    cut to its first character. *)
Theorem get_symbols_after_load :
  ∀ (float : string → result Z) (self self' : ScoringScheme)
    (f : list string) (headline : string) (rows : list string),
    read_headline f = Ok (headline, rows) →
    NoDup (split headline) →
    load_matrix float self f = Ok self' →
    get_symbols self' = Ok (Some (truncate1 <$> split headline)).
Proof.
  intros float self self' f headline rows Hhead Hnd Hload.
  unfold load_matrix in Hload. rewrite Hhead in Hload.
  unfold mbind at 1, result_bind at 1 in Hload. cbn [fst snd] in Hload.
  set (tokens := split headline) in *.
  set (idx := index_symbols tokens) in *.
  apply bind_Ok in Hload as (M & _ & Hself). injection Hself as <-.
  unfold get_symbols. cbn [scoring_matrix symbol_to_index set_matrix].
  destruct (set_symbols_spec (length tokens) (map_to_list idx)
              (replicate (size idx) EmptyString))
    as (symbols & Hrun & Hlen & Hin & _).
  { rewrite length_replicate. apply index_symbols_size. exact Hnd. }
  { intros s i Hsi. apply elem_of_map_to_list in Hsi.
    apply (index_symbols_NoDup _ _ _ Hnd) in Hsi.
    apply lookup_lt_Some in Hsi. exact Hsi. }
  { intros s s' i H1 H2. apply elem_of_map_to_list in H1, H2.
    apply (index_symbols_NoDup _ _ _ Hnd) in H1, H2. congruence. }
  rewrite Hrun. unfold mbind, result_bind. do 2 f_equal.
  apply list_eq. intros i. rewrite list_lookup_fmap.
  destruct (tokens !! i) as [s|] eqn:Hs; cbn.
  - apply Hin. apply elem_of_map_to_list.
    apply (index_symbols_NoDup _ _ _ Hnd). exact Hs.
  - apply lookup_ge_None. apply lookup_ge_None in Hs. lia.
Qed.

Lemma get_symbols_after_load_witness :
  ∃ self',
    load_matrix float_of_literal ScoringScheme_default
      ["# scores" +:+ nl; "A C" +:+ nl; "A 2 -1" +:+ nl; "C -1 2" +:+ nl]
    = Ok self'
    ∧ get_symbols self' = Ok (Some ["A"; "C"]).
Proof.
  eexists. split; [vm_compute; reflexivity |].
  apply (get_symbols_after_load float_of_literal ScoringScheme_default _
           ["# scores" +:+ nl; "A C" +:+ nl; "A 2 -1" +:+ nl; "C -1 2" +:+ nl]
           ("A C" +:+ nl) ["A 2 -1" +:+ nl; "C -1 2" +:+ nl]);
    try (vm_compute; reflexivity).
  vm_compute. apply NoDup_cons. split; [| apply NoDup_cons; split;
    [apply not_elem_of_nil | apply NoDup_nil; exact I]].
  intros Hin. apply elem_of_cons in Hin as [H | H]; [discriminate |].
  apply elem_of_nil in H. exact H.
Defined.

(** * The outcome of the engine and of [main] *)

(** A loop over [seq a n] under an invariant: it returns with the
    invariant, or raises what an iteration raised. *)
Lemma for_each_seq_outcome {St : Type} (P : nat → St → Prop)
    (Q : exception → Prop) (body : nat → St → result St) :
  ∀ n a s,
    P a s →
    (∀ k t, (a ≤ k < a + n)%nat → P k t →
            match body k t with Ok t' => P (S k) t' | Raise e => Q e end) →
    match for_each (seq a n) body s with
    | Ok s' => P (a + n)%nat s'
    | Raise e => Q e
    end.
Proof.
  induction n as [|n IH]; intros a s HP Hbody; cbn.
  - rewrite Nat.add_0_r. exact HP.
  - pose proof (Hbody a s ltac:(lia) HP) as Hfirst.
    destruct (body a s) as [t|e]; unfold mbind, result_bind; [| exact Hfirst].
    rewrite <- Nat.add_succ_comm. apply IH; [exact Hfirst |].
    intros k t' Hk. apply Hbody. lia.
Qed.

Lemma call_no_matrix self a b :
  scoring_matrix self = None →
  call self (str1 a) (str1 b)
  = if is_gap a && is_gap b then Raise ValueError
    else Ok (if is_gap a || is_gap b then gap_penalty self
             else if Ascii.eqb a b then match_score self
                  else mismatch_penalty self).
Proof.
  intros HM. rewrite call_symbols. unfold symbol_score. rewrite HM.
  destruct (is_gap a), (is_gap b); reflexivity.
Qed.

Lemma gap_free_false (s : string) :
  gap_free s = false → ∃ k, String.get k s = Some gap.
Proof.
  induction s as [|c s IH]; intros H; [discriminate |].
  cbn in H. destruct (is_gap c) eqn:E.
  - exists 0%nat. apply is_gap_true in E. subst. reflexivity.
  - cbn in H. destruct (IH H) as [k Hk]. exists (S k). exact Hk.
Qed.

Section Outcome.

Variable self : ScoringScheme.
Variables sequence1 sequence2 : string.
Variable g : Z.
Hypothesis no_matrix : scoring_matrix self = None.

Local Abbreviation m := (String.length sequence1).
Local Abbreviation n := (String.length sequence2).

(** With no matrix loaded an assignment of the loops can only fail with
    the [ValueError] of a pair of gap markers. *)
Lemma fill_cell_outcome (A : matrix) (i j : nat) :
  (1 ≤ i ≤ m)%nat → (1 ≤ j ≤ n)%nat →
  filled_before self sequence1 sequence2 g A i j →
  match fill_cell self sequence1 sequence2 g i j A with
  | Ok A' => filled_before self sequence1 sequence2 g A' i (S j)
  | Raise e => e = ValueError
  end.
Proof.
  intros Hi Hj Hinv.
  destruct (fill_cell self sequence1 sequence2 g i j A) as [A'|e] eqn:Hfill;
    [eapply fill_cell_inv; eauto |].
  pose proof Hinv as (Hshape & _ & _).
  unfold fill_cell in Hfill.
  destruct (np_get_in_range A _ _ (i - 1) (j - 1) Hshape) as [d Hd]; [lia.. |].
  destruct (get_Some sequence1 (i - 1)) as [c1 G1]; [lia |].
  destruct (get_Some sequence2 (j - 1)) as [c2 G2]; [lia |].
  destruct (np_get_in_range A _ _ (i - 1) j Hshape) as [u Hu]; [lia.. |].
  destruct (np_get_in_range A _ _ i (j - 1) Hshape) as [l Hl]; [lia.. |].
  unfold str_index in Hfill. rewrite Hd, G1, G2 in Hfill.
  unfold mbind, result_bind in Hfill.
  rewrite (call_no_matrix self c1 c2 no_matrix) in Hfill.
  destruct (is_gap c1 && is_gap c2); [congruence |].
  rewrite Hu, Hl in Hfill.
  destruct (np_set_in_range A _ _ i j
              (max3 (d + (if is_gap c1 || is_gap c2 then gap_penalty self
                          else if Ascii.eqb c1 c2 then match_score self
                               else mismatch_penalty self))
                    (u + g) (l + g)) Hshape) as [A' HA']; [lia.. |].
  congruence.
Qed.

Lemma build_matrix_outcome :
  match build_matrix self sequence1 sequence2 g with
  | Ok A => filled self sequence1 sequence2 g A
  | Raise e => e = ValueError
  end.
Proof.
  destruct (build_matrix self sequence1 sequence2 g) as [A|e] eqn:Hbuild;
    [apply fill_matrix_filled; exact Hbuild |].
  unfold build_matrix, fill_matrix, range in Hbuild.
  pose proof (for_each_seq_outcome
                (λ i A, filled_before self sequence1 sequence2 g A i 1)
                (λ e, e = ValueError)
                (λ i A, for_each (seq 1 (n + 1 - 1))
                          (λ j A, fill_cell self sequence1 sequence2 g i j A) A)
                (m + 1 - 1) 1 (init_matrix g (m + 1) (n + 1))
                (init_matrix_filled_before self sequence1 sequence2 g))
    as Houter.
  rewrite Hbuild in Houter. apply Houter.
  intros i B Hi HB.
  pose proof (for_each_seq_outcome
                (λ j A, filled_before self sequence1 sequence2 g A i j)
                (λ e, e = ValueError)
                (λ j A, fill_cell self sequence1 sequence2 g i j A)
                (n + 1 - 1) 1 B HB) as Hinner.
  destruct (for_each (seq 1 (n + 1 - 1))
              (λ j A, fill_cell self sequence1 sequence2 g i j A) B)
    as [B'|e'].
  - destruct Hinner as (Hshape & Hborder & Hcells).
    { intros j C Hj HC. apply fill_cell_outcome; [lia | lia | exact HC]. }
    split; [exact Hshape |]. split; [exact Hborder |].
    intros i' j' Hi' Hj' Hlt. apply Hcells; [assumption.. | lia].
  - apply Hinner.
    intros j C Hj HC. apply fill_cell_outcome; [lia | lia | exact HC].
Qed.

End Outcome.

(** With no matrix loaded and a gap penalty to read, the engine returns
    unless both sequences hold a gap marker. *)
Lemma needleman_wunsch_no_matrix_returns self sequence1 sequence2 g :
  gap_extend_penalty self = Some g → scoring_matrix self = None →
  gap_free sequence1 = true ∨ gap_free sequence2 = true →
  ∃ max_score alignments,
    needleman_wunsch sequence1 sequence2 self = Ok (max_score, alignments).
Proof.
  intros Hg HM Hfree.
  destruct (build_matrix_total self sequence1 sequence2 g) as [A HA].
  { intros i j c1 c2 G1 G2. rewrite (call_no_matrix self c1 c2 HM).
    assert (is_gap c1 && is_gap c2 = false) as ->; [| eauto].
    destruct Hfree as [H | H].
    - rewrite (gap_free_get _ _ _ H G1). reflexivity.
    - rewrite (gap_free_get _ _ _ H G2). apply andb_false_r. }
  destruct (needleman_wunsch_returns self sequence1 sequence2 g A Hg HA)
    as (v & st & _ & _ & _ & Hnw).
  eauto.
Qed.

(** With no matrix loaded and a gap penalty to read, the engine returns a
    score and alignments when one of the two sequences holds no gap
    marker, and raises [ValueError] when both hold one: the recurrence
    then asks the scoring scheme for the score of two gap markers. *)
Theorem needleman_wunsch_ValueError_iff_gaps :
  ∀ (self : ScoringScheme) (sequence1 sequence2 : string) (g : Z),
    gap_extend_penalty self = Some g → scoring_matrix self = None →
    (gap_free sequence1 = true ∨ gap_free sequence2 = true →
     ∃ max_score alignments,
       needleman_wunsch sequence1 sequence2 self = Ok (max_score, alignments))
    ∧ (gap_free sequence1 = false → gap_free sequence2 = false →
       needleman_wunsch sequence1 sequence2 self = Raise ValueError).
Proof.
  intros self sequence1 sequence2 g Hg HM. split.
  - apply (needleman_wunsch_no_matrix_returns _ _ _ g); assumption.
  - intros H1 H2.
    apply gap_free_false in H1 as [i G1]. apply gap_free_false in H2 as [j G2].
    pose proof (build_matrix_outcome self sequence1 sequence2 g HM) as Hout.
    unfold needleman_wunsch. rewrite Hg.
    destruct (build_matrix self sequence1 sequence2 g) as [A|e].
    + exfalso.
      destruct (filled_scorable self sequence1 sequence2 g A Hout
                  i j gap gap G1 G2) as [p Hp].
      rewrite (call_no_matrix self gap gap HM) in Hp. discriminate.
    + subst e. reflexivity.
Qed.

Lemma needleman_wunsch_ValueError_iff_gaps_witness :
  (∃ max_score alignments,
      needleman_wunsch "A-C" "AC" textbook_scheme = Ok (max_score, alignments))
  ∧ needleman_wunsch "A-C" "-AC" textbook_scheme = Raise ValueError.
Proof.
  destruct (needleman_wunsch_ValueError_iff_gaps textbook_scheme "A-C" "AC" (-1)
              eq_refl eq_refl) as [H1 _].
  destruct (needleman_wunsch_ValueError_iff_gaps textbook_scheme "A-C" "-AC" (-1)
              eq_refl eq_refl) as [_ H2].
  split; [apply H1; right; reflexivity | apply H2; reflexivity].
Defined.

(** ** main *)

Lemma load_matrix_keeps_gap_extend float self self' f :
  load_matrix float self f = Ok self' →
  gap_extend_penalty self' = gap_extend_penalty self.
Proof.
  unfold load_matrix. intros H.
  apply bind_Ok in H as (hf & _ & H).
  apply bind_Ok in H as (M & _ & H). injection H as <-. reflexivity.
Qed.

Lemma configure_gap_extend (args : Args) :
  gap_extend_penalty (configure args)
  = (λ x, - Z.abs x) <$> args_gap_penalty args.
Proof.
  unfold configure.
  destruct (args_gap_penalty args), (args_match_score args),
           (args_mismatch_penalty args); reflexivity.
Qed.

Lemma configure_no_matrix (args : Args) :
  scoring_matrix (configure args) = None.
Proof.
  unfold configure.
  destruct (args_gap_penalty args), (args_match_score args),
           (args_mismatch_penalty args); reflexivity.
Qed.

(** Without [--gap-penalty], [main] returns nothing, whatever the
    sequences and the other options: it raises what loading the matrix
    file raises, and [AttributeError] when no file is given or the file
    loads. *)
Theorem main_without_gap_penalty :
  ∀ (float : string → result Z) (args : Args),
    args_gap_penalty args = None →
    (∃ e, main float args = Raise e)
    ∧ (args_matrix_file args = None → main float args = Raise AttributeError)
    ∧ (∀ f self', args_matrix_file args = Some f →
                  load_matrix float (configure args) f = Ok self' →
                  main float args = Raise AttributeError).
Proof.
  intros float args Hgap.
  assert (Hnone : gap_extend_penalty (configure args) = None).
  { rewrite configure_gap_extend, Hgap. reflexivity. }
  assert (Hraise : ∀ self', gap_extend_penalty self' = None →
            needleman_wunsch (args_sequence1 args) (args_sequence2 args) self'
            = Raise AttributeError).
  { intros self' H. unfold needleman_wunsch. rewrite H. reflexivity. }
  unfold main. split; [| split].
  - destruct (args_matrix_file args) as [f|].
    + destruct (load_matrix float (configure args) f) as [self'|e] eqn:Hload.
      * exists AttributeError. unfold mbind, result_bind. apply Hraise.
        rewrite (load_matrix_keeps_gap_extend _ _ _ _ Hload). exact Hnone.
      * exists e. reflexivity.
    + exists AttributeError. apply Hraise. exact Hnone.
  - intros ->. apply Hraise. exact Hnone.
  - intros f self' -> Hload. rewrite Hload. unfold mbind, result_bind.
    apply Hraise.
    rewrite (load_matrix_keeps_gap_extend _ _ _ _ Hload). exact Hnone.
Qed.

Lemma main_without_gap_penalty_witness :
  main float_of_literal
       {| args_sequence1 := "GATTACA"; args_sequence2 := "GCATGCU";
          args_gap_penalty := None; args_match_score := Some 2;
          args_mismatch_penalty := None; args_matrix_file := None |}
  = Raise AttributeError.
Proof.
  destruct (main_without_gap_penalty float_of_literal
              {| args_sequence1 := "GATTACA"; args_sequence2 := "GCATGCU";
                 args_gap_penalty := None; args_match_score := Some 2;
                 args_mismatch_penalty := None; args_matrix_file := None |}
              eq_refl) as (_ & H & _).
  apply H. reflexivity.
Defined.

(** With [--gap-penalty] and no matrix file, [main] returns a score and
    alignments for every pair of sequences of which one holds no gap
    marker, and raises [ValueError] when both hold one. *)
Theorem main_with_gap_penalty :
  ∀ (float : string → result Z) (args : Args) (x : Z),
    args_gap_penalty args = Some x → args_matrix_file args = None →
    (gap_free (args_sequence1 args) = true
     ∨ gap_free (args_sequence2 args) = true →
     ∃ max_score alignments, main float args = Ok (max_score, alignments))
    ∧ (gap_free (args_sequence1 args) = false →
       gap_free (args_sequence2 args) = false →
       main float args = Raise ValueError).
Proof.
  intros float args x Hgap Hfile. unfold main. rewrite Hfile.
  unfold mbind, result_bind.
  assert (Hg : gap_extend_penalty (configure args) = Some (- Z.abs x)).
  { rewrite configure_gap_extend, Hgap. reflexivity. }
  pose proof (configure_no_matrix args) as HM.
  split.
  - apply (needleman_wunsch_no_matrix_returns _ _ _ _ Hg HM).
  - intros H1 H2.
    apply gap_free_false in H1 as [i G1]. apply gap_free_false in H2 as [j G2].
    pose proof (build_matrix_outcome (configure args) (args_sequence1 args)
                  (args_sequence2 args) (- Z.abs x) HM) as Hout.
    unfold needleman_wunsch. rewrite Hg.
    destruct (build_matrix (configure args) (args_sequence1 args)
                (args_sequence2 args) (- Z.abs x)) as [A|e].
    + exfalso.
      destruct (filled_scorable (configure args) (args_sequence1 args)
                  (args_sequence2 args) (- Z.abs x) A Hout
                  i j gap gap G1 G2) as [p Hp].
      rewrite (call_no_matrix _ gap gap HM) in Hp. discriminate.
    + subst e. reflexivity.
Qed.

Lemma main_with_gap_penalty_witness :
  ∃ max_score alignments,
    main float_of_literal
         {| args_sequence1 := "GATTACA"; args_sequence2 := "GCATGCU";
            args_gap_penalty := Some 1; args_match_score := None;
            args_mismatch_penalty := None; args_matrix_file := None |}
    = Ok (max_score, alignments).
Proof.
  destruct (main_with_gap_penalty float_of_literal
              {| args_sequence1 := "GATTACA"; args_sequence2 := "GCATGCU";
                 args_gap_penalty := Some 1; args_match_score := None;
                 args_mismatch_penalty := None; args_matrix_file := None |}
              1 eq_refl eq_refl) as [H _].
  apply H. left. reflexivity.
Defined.

(** * Comment lines and the precedence of the matrix *)

Lemma read_headline_skips (comments f : list string) :
  Forall is_comment comments →
  read_headline (comments ++ f) = read_headline f.
Proof.
  induction comments as [|line comments IH]; intros Hc; [reflexivity |].
  apply Forall_cons in Hc as [[rest ->] Hc]. cbn. exact (IH Hc).
Qed.

(** The comment lines before the header change nothing: the file loads,
    or fails, as it does without them. *)
Theorem load_matrix_skips_leading_comments :
  ∀ (float : string → result Z) (self : ScoringScheme)
    (comments f : list string),
    Forall is_comment comments →
    load_matrix float self (comments ++ f) = load_matrix float self f.
Proof.
  intros float self comments f Hc. unfold load_matrix.
  rewrite (read_headline_skips comments f Hc). reflexivity.
Qed.

Lemma load_matrix_skips_leading_comments_witness :
  load_matrix float_of_literal ScoringScheme_default
    (["# PAM"; "#"] ++ ["A C" +:+ nl; "A 2 -1" +:+ nl; "C -1 2" +:+ nl])
  = load_matrix float_of_literal ScoringScheme_default
      ["A C" +:+ nl; "A 2 -1" +:+ nl; "C -1 2" +:+ nl].
Proof.
  apply (load_matrix_skips_leading_comments float_of_literal
           ScoringScheme_default ["# PAM"; "#"]).
  repeat constructor; eexists; reflexivity.
Defined.

(** With a substitution matrix loaded the scorer never uses the match and
    mismatch constants: assigning them does not change a score. *)
Theorem score_matrix_precedence :
  ∀ (self : ScoringScheme) (M : matrix) (x y : Z) (s1 s2 : string),
    scoring_matrix self = Some M →
    score (set_mismatch_penalty (set_match_score self x) y) s1 s2
    = score self s1 s2.
Proof.
  intros self M x y s1 s2 HM. rewrite !score_sum_positions.
  unfold sum_positions. apply sum_terms_ext. intros k _.
  unfold position_term, symbol_score.
  cbn [set_mismatch_penalty set_match_score scoring_matrix symbol_to_index
       gap_penalty gap_start_penalty].
  rewrite HM. reflexivity.
Qed.

Lemma score_matrix_precedence_witness :
  score (set_mismatch_penalty (set_match_score two_symbol_scheme 5) (-7))
        "ACCA" "AC-C"
  = score two_symbol_scheme "ACCA" "AC-C".
Proof.
  apply (score_matrix_precedence two_symbol_scheme [[2; -1]; [-1; 2]]).
  reflexivity.
Defined.
